(** * Emergency2.py: the call-log store of [EmergencyServicePerformance]

    A shallow embedding of the class [EmergencyServicePerformance] of
    [Emergency2.py] and the properties of its operations.

    Modelling choices.
    - A naive [datetime] is the number of microseconds since
      0001-01-01T00:00:00 (the resolution of Python's [datetime]); a
      [timedelta] is a number of microseconds.  Comparison of datetimes is
      comparison of these numbers and their difference is exact.  Every
      operation that makes a [timedelta] (a difference of datetimes, a sum,
      a quotient) checks it against the type's range of 999999999 days and
      raises [OverflowError] outside it, as the constructor does.
    - A call record is a dictionary with six fixed keys; it is a record here.
    - A method is a computation over the object's state that either returns
      a value or raises; the state reached is kept in both cases, as it is
      when a Python exception propagates.
    - Python's [float] is binary64; the value of [int / int] and of
      [float * int] is the correctly rounded result (round to nearest, ties
      to even), which is written out on integer fractions below. *)

From Stdlib Require Import ZArith Lia List String Bool SpecFloat.
From stdpp Require Import list.
Import ListNotations.

Local Open Scope Z_scope.

(** ** Time *)

Definition datetime := Z.
Definition timedelta := Z.

Module Calendar.

(** The proleptic Gregorian ordinal of a date, as [datetime.toordinal]
    computes it (1 is 0001-01-01). *)

Definition is_leap (year : Z) : bool :=
  (year mod 4 =? 0) && (negb (year mod 100 =? 0) || (year mod 400 =? 0)).

Definition days_before_year (year : Z) : Z :=
  let y := year - 1 in
  y * 365 + y / 4 - y / 100 + y / 400.

Definition days_in_month (year month : Z) : Z :=
  if month =? 2 then (if is_leap year then 29 else 28)
  else if (month =? 4) || (month =? 6) || (month =? 9) || (month =? 11)
       then 30 else 31.

Fixpoint days_before_month_from (year : Z) (months : nat) : Z :=
  match months with
  | O => 0
  | S k => days_before_month_from year k + days_in_month year (Z.of_nat (S k))
  end.

Definition days_before_month (year month : Z) : Z :=
  days_before_month_from year (Z.to_nat (month - 1)).

Definition ymd2ord (year month day : Z) : Z :=
  days_before_year year + days_before_month year month + day.

Definition us_per_second : Z := 1000000.
Definition us_per_minute : Z := 60 * us_per_second.
Definition us_per_hour : Z := 60 * us_per_minute.
Definition us_per_day : Z := 24 * us_per_hour.

(** The time of day, in microseconds after midnight. *)
Definition time_of_day (hour minute : Z) : Z :=
  hour * us_per_hour + minute * us_per_minute.

(** [datetime(year, month, day, hour, minute)]. *)
Definition mk_datetime (year month day hour minute : Z) : datetime :=
  (ymd2ord year month day - 1) * us_per_day + time_of_day hour minute.

(** [datetime.min] and [datetime.max]: 0001-01-01 00:00:00 and
    9999-12-31 23:59:59.999999. *)
Definition datetime_min : datetime := mk_datetime 1 1 1 0 0.
Definition datetime_max : datetime :=
  mk_datetime 9999 12 31 23 59 + 59 * us_per_second + 999999.

(** [timedelta(minutes=n)], also for half minutes: [halves] counts
    thirty-second units. *)
Definition minutes (n : Z) : timedelta := n * us_per_minute.
Definition half_minutes (halves : Z) : timedelta := halves * (us_per_minute / 2).

End Calendar.

(** [timedelta._divide_and_round]: the quotient of [a] by [b] rounded to the
    nearest integer, a tie going to the even one.  Python's [divmod] is the
    floor division, which [Z.div] and [Z.modulo] are. *)
Definition divide_and_round (a b : Z) : Z :=
  let q := a / b in
  let r := 2 * (a mod b) in
  let greater_than_half := if 0 <? b then b <? r else r <? b in
  if greater_than_half || ((r =? b) && (q mod 2 =? 1)) then q + 1 else q.

(** ** Exceptions and the method monad *)

Inductive exn : Type :=
| ValueError (msg : string)
| ZeroDivisionError
| OverflowError
| OverflowError_timedelta (days : Z).

Inductive result (A : Type) : Type :=
| Ok (a : A)
| Raise (e : exn).
Arguments Ok {A} a.
Arguments Raise {A} e.

(** [OverflowError_timedelta days] is the [OverflowError] of a [timedelta]
    out of range, "days=...; must have magnitude <= 999999999"; the plain
    [OverflowError] is that of a float too large. *)

(** The two error kinds of the store.  Both are [ValueError]s in the code,
    told apart by their message. *)
Definition msg_ordering : string := "Timestamps are not in logical order.".
Definition msg_empty_response : string :=
  "No call logs available to calculate average response time.".
Definition msg_empty_rate : string :=
  "No call logs available to calculate success rate.".
Definition msg_empty_resolution : string :=
  "No call logs available to calculate average resolution time.".

Definition is_InvalidOrderingError (e : exn) : bool :=
  match e with
  | ValueError m => String.eqb m msg_ordering
  | _ => false
  end.

Definition is_EmptyStoreError (e : exn) : bool :=
  match e with
  | ValueError m => String.prefix "No call logs available" m
  | _ => false
  end.

Section Method.
Context {St : Type}.

(** A method over a state [St]: the outcome and the state it leaves. *)
Definition M (A : Type) : Type := St -> result A * St.

Definition ret {A} (a : A) : M A := fun s => (Ok a, s).
Definition raise {A} (e : exn) : M A := fun s => (Raise e, s).
Definition bind {A B} (c : M A) (k : A -> M B) : M B :=
  fun s => match c s with
           | (Ok a, s') => k a s'
           | (Raise e, s') => (Raise e, s')
           end.
Definition get : M St := fun s => (Ok s, s).
Definition lift {A} (r : result A) : M A := fun s => (r, s).
End Method.
Arguments M : clear implicits.

Declare Scope method_scope.
Delimit Scope method_scope with method.
Notation "x <- c ;; k" := (bind c (fun x => k))
  (at level 100, c at next level, right associativity) : method_scope.
Notation "c ;;; k" := (bind c (fun _ => k))
  (at level 100, right associativity) : method_scope.

(** ** The store *)

Record CallRecord : Type := mkCall {
  call_id : Z;
  call_time : datetime;
  dispatch_time : datetime;
  arrival_time : datetime;
  resolution_time : datetime;
  success : bool
}.

Record EmergencyServicePerformance : Type := mkStore {
  call_logs : list CallRecord
}.

(** [__init__] *)
Definition init : EmergencyServicePerformance := {| call_logs := [] |}.

Definition ESP := M EmergencyServicePerformance.

(** [self.call_logs.append(r)] *)
Definition append_log (r : CallRecord) : ESP unit :=
  fun s => (Ok tt, {| call_logs := call_logs s ++ [r] |}).

(** [call_time <= dispatch_time <= arrival_time <= resolution_time] *)
Definition in_logical_order (c d a r : datetime) : bool :=
  (c <=? d) && (d <=? a) && (a <=? r).

Definition add_call_log (id : Z) (c d a r : datetime) (ok : bool) : ESP unit :=
  if negb (in_logical_order c d a r)
  then raise (ValueError msg_ordering)
  else
    let call_record :=
      {| call_id := id; call_time := c; dispatch_time := d;
         arrival_time := a; resolution_time := r; success := ok |} in
    append_log call_record.

(** The [for] loop of [add_multiple_call_logs]: the first exception leaves
    the loop, what was appended before stays. *)
Fixpoint add_multiple_call_logs (calls : list CallRecord) : ESP unit :=
  match calls with
  | [] => ret tt
  | call :: rest =>
      (add_call_log (call_id call) (call_time call) (dispatch_time call)
                    (arrival_time call) (resolution_time call) (success call) ;;;
       add_multiple_call_logs rest)%method
  end.

(** *** The range of [timedelta] *)

Definition max_delta_days : Z := 999999999.

(** [timedelta.min] and [timedelta.max], in microseconds. *)
Definition timedelta_min : timedelta := - max_delta_days * Calendar.us_per_day.
Definition timedelta_max : timedelta :=
  (max_delta_days + 1) * Calendar.us_per_day - 1.

(** The check every new [timedelta] goes through: normalised to days,
    seconds and microseconds, its days must have magnitude at most
    [max_delta_days]. *)
Definition new_delta (us : Z) : result timedelta :=
  let days := us / Calendar.us_per_day in
  if (- max_delta_days <=? days) && (days <=? max_delta_days)
  then Ok us
  else Raise (OverflowError_timedelta days).

(** [datetime - datetime] *)
Definition datetime_sub (a b : datetime) : result timedelta := new_delta (a - b).

(** [timedelta + timedelta] *)
Definition timedelta_add (x y : timedelta) : result timedelta := new_delta (x + y).

(** [timedelta / int] *)
Definition timedelta_truediv (t : timedelta) (n : Z) : result timedelta :=
  if n =? 0 then Raise ZeroDivisionError else new_delta (divide_and_round t n).

(** The loop of the two averages, from the running [total]:
    [for call in self.call_logs: d = call[until] - call['call_time'];
    total += d].  It stops at the first operation that raises. *)
Fixpoint total_duration (until : CallRecord -> datetime)
  (logs : list CallRecord) (total : timedelta) : result timedelta :=
  match logs with
  | [] => Ok total
  | call :: rest =>
      match datetime_sub (until call) (call_time call) with
      | Raise e => Raise e
      | Ok duration =>
          match timedelta_add total duration with
          | Raise e => Raise e
          | Ok total => total_duration until rest total
          end
      end
  end.

Definition len {A} (l : list A) : Z := Z.of_nat (length l).

Definition average_response_time : ESP timedelta :=
  (self <- get ;;
   match call_logs self with
   | [] => raise (ValueError msg_empty_response)
   | _ =>
       total_response_time <- lift (total_duration arrival_time (call_logs self) 0) ;;
       lift (timedelta_truediv total_response_time (len (call_logs self)))
   end)%method.

Definition average_resolution_time : ESP timedelta :=
  (self <- get ;;
   match call_logs self with
   | [] => raise (ValueError msg_empty_resolution)
   | _ =>
       total_resolution_time <-
         lift (total_duration resolution_time (call_logs self) 0) ;;
       lift (timedelta_truediv total_resolution_time (len (call_logs self)))
   end)%method.

Definition in_timeframe (start_time end_time : datetime) (call : CallRecord) : bool :=
  (start_time <=? call_time call) && (call_time call <=? end_time).

Definition calls_in_timeframe (start_time end_time : datetime)
  : ESP (list CallRecord) :=
  (self <- get ;;
   ret (List.filter (in_timeframe start_time end_time) (call_logs self)))%method.

(** ** Binary64 arithmetic *)

Module Float.

(** A float is a sign and a magnitude [m * 2^e], an infinity or a NaN.
    Finite values are kept in the canonical form of binary64: [m] has 53
    bits, or fewer at the least exponent [emin]. *)
Inductive float : Type :=
| Finite (neg : bool) (m e : Z)
| Infinity (neg : bool)
| NaN.

Definition prec : Z := 53.
Definition emin : Z := -1074.
(** The exponent of the largest finite floats, [m * 2^971 < 2^1024]. *)
Definition emax : Z := 971.

(** [2^e] for [0 <= e], and [1] below: the two of them split a power of
    two between numerator and denominator. *)
Definition pow2 (e : Z) : Z := 2 ^ Z.max 0 e.

(** Is [2^e <= a/b]?  (for [0 < b]) *)
Definition frac_ge_pow2 (a b e : Z) : bool :=
  b * pow2 e <=? a * pow2 (- e).

(** [floor (log2 (a/b))] for [0 < a] and [0 < b]. *)
Definition frac_log2 (a b : Z) : Z :=
  let E0 := Z.log2 a - Z.log2 b in
  if frac_ge_pow2 a b E0 then E0 else E0 - 1.

(** The integer nearest to [n/d], ties to even (for [0 <= n], [0 < d]). *)
Definition round_nearest_even (n d : Z) : Z :=
  let q := n / d in
  match 2 * (n mod d) ?= d with
  | Lt => q
  | Gt => q + 1
  | Eq => if Z.even q then q else q + 1
  end.

(** The magnitude of the float nearest to [a/b] for [0 <= a], [0 < b]:
    mantissa and exponent, [None] when it is beyond the largest float. *)
Definition round_frac (a b : Z) : option (Z * Z) :=
  if a =? 0 then Some (0, emin)
  else
    let e := Z.max (frac_log2 a b - (prec - 1)) emin in
    let m := round_nearest_even (a * pow2 (- e)) (b * pow2 e) in
    let '(m, e) := if m =? 2 ^ prec then (2 ^ (prec - 1), e + 1) else (m, e) in
    if emax <? e then None else Some (m, e).

(** [a / b] on integers ([long_true_divide]). *)
Definition int_truediv (a b : Z) : result float :=
  if b =? 0 then Raise ZeroDivisionError
  else
    let neg := xorb (a <? 0) (b <? 0) in
    match round_frac (Z.abs a) (Z.abs b) with
    | Some (m, e) => Ok (Finite neg m e)
    | None => Raise OverflowError
    end.

(** [float(n)] for an integer, as the mixed operations convert it. *)
Definition of_int (n : Z) : result float :=
  match round_frac (Z.abs n) 1 with
  | Some (m, e) => Ok (Finite (n <? 0) m e)
  | None => Raise OverflowError
  end.

Definition is_zero (x : float) : bool :=
  match x with Finite _ m _ => m =? 0 | _ => false end.

Definition sign (x : float) : bool :=
  match x with Finite s _ _ | Infinity s => s | NaN => false end.

(** [x * y] on floats. *)
Definition mul (x y : float) : float :=
  match x, y with
  | NaN, _ | _, NaN => NaN
  | Infinity s, z | z, Infinity s =>
      if is_zero z then NaN else Infinity (xorb s (sign z))
  | Finite s1 m1 e1, Finite s2 m2 e2 =>
      let e := e1 + e2 in
      match round_frac (m1 * m2 * pow2 e) (pow2 (- e)) with
      | Some (m, e') => Finite (xorb s1 s2) m e'
      | None => Infinity (xorb s1 s2)
      end
  end.

(** [float * int]: the integer is converted first. *)
Definition mul_int (x : float) (n : Z) : result float :=
  match of_int n with
  | Ok y => Ok (mul x y)
  | Raise e => Raise e
  end.

(** [x <= y] on floats. *)
Definition signed (s : bool) (m : Z) : Z := if s then - m else m.

Definition leb (x y : float) : bool :=
  match x, y with
  | NaN, _ | _, NaN => false
  | Infinity true, _ | _, Infinity false => true
  | Infinity false, _ | _, Infinity true => false
  | Finite s1 m1 e1, Finite s2 m2 e2 =>
      let e := Z.min e1 e2 in
      signed s1 m1 * 2 ^ (e1 - e) <=? signed s2 m2 * 2 ^ (e2 - e)
  end.

(** [2^E <= a/b < 2^(E+1)] *)
Definition in_binade (a b E : Z) : Prop :=
  frac_ge_pow2 a b E = true /\ frac_ge_pow2 a b (E + 1) = false.

(** [a/b <= M * 2^t], on the split powers. *)
Definition frac_le (a b M t : Z) : Prop :=
  a * pow2 (- t) <= M * b * pow2 t.

(** The float [m * 2^e] is within [2^-bits] of [num/den], relatively:
    [|m * 2^e - num/den| <= 2^-bits * num/den]. *)
Definition close_to (m e num den bits : Z) : Prop :=
  2 ^ bits * Z.abs (m * pow2 e * den - num * pow2 (- e)) <= num * pow2 (- e).

(** [1.0] and [1e19]. *)
Definition one : float := Finite false (2 ^ 52) (- 52).
Definition top_rate : float := Finite false 4882812500000000 11.
Definition zero : float := Finite false 0 emin.

End Float.

(** [sum(call['success'] for call in self.call_logs)]: [True] counts 1. *)
Definition count_success (logs : list CallRecord) : Z :=
  fold_left (fun total call => total + Z.b2z (success call)) logs 0.

Definition rate_scale : Z := 10000000000000000000.

Definition success_rate : ESP Float.float :=
  (self <- get ;;
   match call_logs self with
   | [] => raise (ValueError msg_empty_rate)
   | _ =>
       let successful_calls := count_success (call_logs self) in
       fraction <- lift (Float.int_truediv successful_calls (len (call_logs self))) ;;
       rate <- lift (Float.mul_int fraction rate_scale) ;;
       ret rate
   end)%method.

(** ** Sequences of operations *)

(** A call of one of the public methods. *)
Inductive call : Type :=
| AddCallLog (id : Z) (c d a r : datetime) (ok : bool)
| AddMultipleCallLogs (calls : list CallRecord)
| AverageResponseTime
| AverageResolutionTime
| SuccessRate
| CallsInTimeframe (start_time end_time : datetime).

(** The state a call leaves, whether it returns or raises (the caller
    catches the exception and goes on, as the example usage does). *)
Definition run_call (c : call) (s : EmergencyServicePerformance)
  : EmergencyServicePerformance :=
  match c with
  | AddCallLog id c d a r ok => snd (add_call_log id c d a r ok s)
  | AddMultipleCallLogs calls => snd (add_multiple_call_logs calls s)
  | AverageResponseTime => snd (average_response_time s)
  | AverageResolutionTime => snd (average_resolution_time s)
  | SuccessRate => snd (success_rate s)
  | CallsInTimeframe t1 t2 => snd (calls_in_timeframe t1 t2 s)
  end.

Definition run_calls (cs : list call) (s : EmergencyServicePerformance)
  : EmergencyServicePerformance :=
  fold_left (fun s c => run_call c s) cs s.

(** ** Vocabulary of the properties *)

(** The record's timestamps are in chronological order. *)
Definition well_ordered (r : CallRecord) : Prop :=
  call_time r <= dispatch_time r /\ dispatch_time r <= arrival_time r /\
  arrival_time r <= resolution_time r.

Definition well_orderedb (r : CallRecord) : bool :=
  in_logical_order (call_time r) (dispatch_time r) (arrival_time r)
                   (resolution_time r).

Definition response_duration (r : CallRecord) : timedelta :=
  arrival_time r - call_time r.

Definition resolution_duration (r : CallRecord) : timedelta :=
  resolution_time r - call_time r.

(** A duration within the range of [timedelta]. *)
Definition in_timedelta_range (us : Z) : Prop :=
  timedelta_min <= us <= timedelta_max.

(** Every duration of the list and every running total, from [total] on,
    is within the range of [timedelta]. *)
Fixpoint totals_in_range (durations : list Z) (total : Z) : Prop :=
  match durations with
  | [] => True
  | d :: rest =>
      in_timedelta_range d /\ in_timedelta_range (total + d) /\
      totals_in_range rest (total + d)
  end.

(** [d_1 + ... + d_N] *)
Fixpoint sum_Z (l : list Z) : Z :=
  match l with
  | [] => 0
  | x :: l => x + sum_Z l
  end.

(** The number of records with [success == True]. *)
Fixpoint successes (logs : list CallRecord) : nat :=
  match logs with
  | [] => O
  | r :: logs => if success r then S (successes logs) else successes logs
  end.

(** The demonstration data of the [__main__] block. *)
Module Demo.
Import Calendar.

Definition call1 : CallRecord :=
  mkCall 1 (mk_datetime 2023 10 1 14 30) (mk_datetime 2023 10 1 14 31)
           (mk_datetime 2023 10 1 14 35) (mk_datetime 2023 10 1 14 50) true.
Definition call2 : CallRecord :=
  mkCall 2 (mk_datetime 2023 10 2 9 15) (mk_datetime 2023 10 2 9 16)
           (mk_datetime 2023 10 2 9 20) (mk_datetime 2023 10 2 9 45) false.
Definition call3 : CallRecord :=
  mkCall 3 (mk_datetime 2023 10 3 20 5) (mk_datetime 2023 10 3 20 6)
           (mk_datetime 2023 10 3 20 10) (mk_datetime 2023 10 3 20 30) true.

Definition calls : list CallRecord := [call1; call2; call3].

(** A record whose unit is dispatched before the call comes in. *)
Definition bad_call : CallRecord :=
  mkCall 4 (mk_datetime 2023 10 4 8 0) (mk_datetime 2023 10 4 7 59)
           (mk_datetime 2023 10 4 8 10) (mk_datetime 2023 10 4 8 30) true.

(** A call received at [datetime.min] and closed at [datetime.max], and a
    batch of 274 of them. *)
Definition longest_call : CallRecord :=
  mkCall 5 datetime_min datetime_min datetime_max datetime_max true.

Definition longest_calls : list CallRecord := repeat longest_call 274.
End Demo.

(** Equality of records is decidable (all fields are integers or
    booleans). *)
Definition CallRecord_eq_dec (x y : CallRecord) : {x = y} + {x <> y}.
Proof. decide equality; first [apply Z.eq_dec | apply Bool.bool_dec]. Defined.

(** The success rate as the docstring words it, "the success rate as a
    percentage": the fraction of successful calls times 100.  It follows the
    documentation, not the code, and serves to compare the two. *)
Definition documented_success_rate : ESP Float.float :=
  (self <- get ;;
   match call_logs self with
   | [] => raise (ValueError msg_empty_rate)
   | _ =>
       let successful_calls := count_success (call_logs self) in
       fraction <- lift (Float.int_truediv successful_calls (len (call_logs self))) ;;
       rate <- lift (Float.mul_int fraction 100) ;;
       ret rate
   end)%method.

(** The value of a float in the Standard Library's specification of
    IEEE 754 arithmetic, to compare the rounding above with [SFdiv] and
    [SFmul]. *)
Definition to_spec_float (x : Float.float) : spec_float :=
  match x with
  | Float.Finite s m e =>
      if m =? 0 then S754_zero s else S754_finite s (Z.to_pos m) e
  | Float.Infinity s => S754_infinity s
  | Float.NaN => S754_nan
  end.

Definition result_to_spec_float (x : result Float.float) : spec_float :=
  match x with
  | Ok x => to_spec_float x
  | Raise _ => S754_nan
  end.

(** [a / b] and [x * n] through the Standard Library's operations, for
    integers that binary64 holds exactly. *)
Definition reference_truediv (a b : Z) : spec_float :=
  SFdiv 53 1024 (result_to_spec_float (Float.of_int a))
                (result_to_spec_float (Float.of_int b)).

Definition reference_mul_int (x : Float.float) (n : Z) : spec_float :=
  SFmul 53 1024 (to_spec_float x) (result_to_spec_float (Float.of_int n)).

(** The exception a computation ends with, if it raises. *)
Definition raised {A} (r : result A) : option exn :=
  match r with
  | Ok _ => None
  | Raise e => Some e
  end.

(** The exception a call of a public method raises on a store, if any. *)
Definition call_raises (c : call) (s : EmergencyServicePerformance)
  : option exn :=
  match c with
  | AddCallLog id c d a r ok => raised (fst (add_call_log id c d a r ok s))
  | AddMultipleCallLogs calls => raised (fst (add_multiple_call_logs calls s))
  | AverageResponseTime => raised (fst (average_response_time s))
  | AverageResolutionTime => raised (fst (average_resolution_time s))
  | SuccessRate => raised (fst (success_rate s))
  | CallsInTimeframe t1 t2 => raised (fst (calls_in_timeframe t1 t2 s))
  end.

(** Is the call one of the two insertions? *)
Definition is_insertion (c : call) : bool :=
  match c with
  | AddCallLog _ _ _ _ _ _ | AddMultipleCallLogs _ => true
  | _ => false
  end.

(** [try: ... except ValueError as e: ...], the way the example usage
    calls the metrics: a [ValueError] is caught and its message kept, any
    other exception goes on. *)
Definition except_ValueError {A} (c : ESP A) : ESP (A + string) :=
  fun s =>
    match c s with
    | (Ok a, s') => (Ok (inl a), s')
    | (Raise (ValueError m), s') => (Ok (inr m), s')
    | (Raise e, s') => (Raise e, s')
    end.

(** The [__main__] block: the three example records are inserted, the
    three metrics are computed under [except ValueError] and the calls of a
    timeframe are counted.  What the block prints is returned: the two
    averages and the rate (or the message caught) and the number of calls
    in range. *)
Definition main
  : ESP ((timedelta + string) * (Float.float + string) *
         (timedelta + string) * Z) :=
  (add_multiple_call_logs Demo.calls ;;;
   avg_response <- except_ValueError average_response_time ;;
   success_percentage <- except_ValueError success_rate ;;
   avg_resolution <- except_ValueError average_resolution_time ;;
   let start := Calendar.mk_datetime 2024 10 1 0 0 in
   let end_ := Calendar.mk_datetime 2024 10 2 23 59 in
   calls_in_range <- calls_in_timeframe start end_ ;;
   ret (avg_response, success_percentage, avg_resolution, len calls_in_range))%method.

(** The record with every timestamp moved by [delta]
    ([datetime + timedelta]). *)
Definition shift_record (delta : timedelta) (r : CallRecord) : CallRecord :=
  {| call_id := call_id r;
     call_time := call_time r + delta;
     dispatch_time := dispatch_time r + delta;
     arrival_time := arrival_time r + delta;
     resolution_time := resolution_time r + delta;
     success := success r |}.

(** Fractions on which the rounding is compared with the library's. *)
Definition sample_fractions : list (Z * Z) :=
  [(1, 3); (2, 3); (1, 1); (7, 7); (0, 5); (1, 10); (99, 100); (3, 7);
   (123456789, 987654321); (9007199254740991, 9007199254740992);
   (4503599627370497, 3); (5, 2)].

(** * Properties *)

(** ** Rounded division *)

Section DivideAndRound.

Lemma divide_and_round_nearest a b :
  0 < b -> 2 * Z.abs (b * divide_and_round a b - a) <= b.
Proof.
  intros Hb. unfold divide_and_round.
  pose proof (Z.div_mod a b ltac:(lia)) as Hdm.
  pose proof (Z.mod_pos_bound a b Hb) as Hr.
  destruct (Z.ltb_spec 0 b); [|lia].
  destruct (Z.ltb_spec b (2 * (a mod b))); simpl.
  - lia.
  - destruct (Z.eqb_spec (2 * (a mod b)) b); simpl.
    + destruct (Z.eqb_spec ((a / b) mod 2) 1); lia.
    + lia.
Qed.

Lemma divide_and_round_exact q b :
  0 < b -> divide_and_round (b * q) b = q.
Proof.
  intros Hb. unfold divide_and_round.
  replace (b * q) with (q * b) by lia.
  rewrite Z.div_mul, Z.mod_mul by lia.
  destruct (Z.ltb_spec 0 b); [|lia].
  destruct (Z.ltb_spec b (2 * 0)); [lia|].
  destruct (Z.eqb_spec (2 * 0) b); [lia|]. reflexivity.
Qed.

End DivideAndRound.

(** ** Binary64 rounding *)

Module FloatFacts.
Import Float.

Lemma pow2_pos e : 0 < pow2 e.
Proof. unfold pow2. apply Z.pow_pos_nonneg; lia. Qed.

Lemma pow2_nonneg e : 0 <= e -> pow2 e = 2 ^ e /\ pow2 (- e) = 1.
Proof.
  intros He. unfold pow2. rewrite Z.max_r by lia.
  rewrite (Z.max_l 0 (- e)) by lia. auto.
Qed.

Lemma pow2_nonpos e : e <= 0 -> pow2 e = 1 /\ pow2 (- e) = 2 ^ (- e).
Proof.
  intros He. unfold pow2. rewrite Z.max_l by lia.
  rewrite (Z.max_r 0 (- e)) by lia. auto.
Qed.

(** [2^(e+k) / 2^e = 2^k], on the split powers. *)
Lemma pow2_shift e k :
  0 <= k -> pow2 (e + k) * pow2 (- e) = 2 ^ k * pow2 e * pow2 (- (e + k)).
Proof.
  intros Hk. unfold pow2.
  rewrite <- !Z.pow_add_r by lia. f_equal. lia.
Qed.

Lemma frac_ge_pow2_spec a b e :
  frac_ge_pow2 a b e = true <-> b * pow2 e <= a * pow2 (- e).
Proof. unfold frac_ge_pow2. apply Z.leb_le. Qed.

Lemma frac_ge_pow2_mono a b e e' :
  0 <= a -> 0 < b -> e <= e' ->
  frac_ge_pow2 a b e' = true -> frac_ge_pow2 a b e = true.
Proof.
  intros Ha Hb Hle. rewrite !frac_ge_pow2_spec. intros H.
  pose proof (pow2_shift e (e' - e) ltac:(lia)) as Hs.
  replace (e + (e' - e)) with e' in Hs by lia.
  pose proof (pow2_pos e) as P1. pose proof (pow2_pos (- e)) as P2.
  pose proof (pow2_pos e') as P3. pose proof (pow2_pos (- e')) as P4.
  assert (1 <= 2 ^ (e' - e)) as HK
    by (pose proof (Z.pow_pos_nonneg 2 (e' - e)); lia).
  apply (Z.mul_le_mono_pos_r _ _ (pow2 (- e'))); [lia|].
  transitivity (b * (2 ^ (e' - e) * pow2 e * pow2 (- e'))); [nia|].
  rewrite <- Hs. nia.
Qed.

Lemma frac_ge_pow2_scale c a b e :
  0 < c -> frac_ge_pow2 (c * a) (c * b) e = frac_ge_pow2 a b e.
Proof.
  intros Hc. unfold frac_ge_pow2.
  apply eq_true_iff_eq. rewrite !Z.leb_le.
  rewrite <- !Z.mul_assoc. symmetry. apply Z.mul_le_mono_pos_l. lia.
Qed.

Lemma in_binade_unique a b E E' :
  0 <= a -> 0 < b -> in_binade a b E -> in_binade a b E' -> E = E'.
Proof.
  intros Ha Hb [H1 H2] [H1' H2'].
  destruct (Z.lt_trichotomy E E') as [Hlt|[Heq|Hgt]]; [|assumption|].
  - rewrite (frac_ge_pow2_mono a b (E + 1) E') in H2 by (auto; lia).
    discriminate.
  - rewrite (frac_ge_pow2_mono a b (E' + 1) E) in H2' by (auto; lia).
    discriminate.
Qed.

Lemma frac_log2_spec a b :
  0 < a -> 0 < b -> in_binade a b (frac_log2 a b).
Proof.
  intros Ha Hb. unfold frac_log2, in_binade.
  destruct (Z.log2_spec a Ha) as [La Ua].
  destruct (Z.log2_spec b Hb) as [Lb Ub].
  pose proof (Z.log2_nonneg a) as Na. pose proof (Z.log2_nonneg b) as Nb.
  set (la := Z.log2 a) in *. set (lb := Z.log2 b) in *.
  rewrite !Z.pow_succ_r in * by lia.
  destruct (frac_ge_pow2 a b (la - lb)) eqn:Hge.
  - split; [assumption|].
    apply not_true_is_false. rewrite frac_ge_pow2_spec.
    assert (2 ^ lb * pow2 (la - lb + 1) = 2 * 2 ^ la * pow2 (- (la - lb + 1))) as Hs.
    { unfold pow2. rewrite <- (Z.pow_succ_r 2 la) by lia.
      rewrite <- !Z.pow_add_r by lia. f_equal. lia. }
    pose proof (pow2_pos (la - lb + 1)). pose proof (pow2_pos (- (la - lb + 1))).
    nia.
  - split.
    + rewrite frac_ge_pow2_spec.
      assert (2 * 2 ^ lb * pow2 (la - lb - 1) = 2 ^ la * pow2 (- (la - lb - 1))) as Hs.
      { unfold pow2. rewrite <- (Z.pow_succ_r 2 lb) by lia.
        rewrite <- !Z.pow_add_r by lia. f_equal. lia. }
      pose proof (pow2_pos (la - lb - 1)). pose proof (pow2_pos (- (la - lb - 1))).
      nia.
    + replace (la - lb - 1 + 1) with (la - lb) by lia. assumption.
Qed.

Lemma frac_log2_scale c a b :
  0 < c -> 0 < a -> 0 < b -> frac_log2 (c * a) (c * b) = frac_log2 a b.
Proof.
  intros Hc Ha Hb.
  apply (in_binade_unique a b); try lia.
  - destruct (frac_log2_spec (c * a) (c * b)) as [H1 H2]; try nia.
    rewrite frac_ge_pow2_scale in H1, H2 by assumption. split; assumption.
  - apply frac_log2_spec; assumption.
Qed.

Lemma round_nearest_even_scale c n d :
  0 < c -> 0 < d ->
  round_nearest_even (c * n) (c * d) = round_nearest_even n d.
Proof.
  intros Hc Hd. unfold round_nearest_even.
  rewrite Z.div_mul_cancel_l by lia.
  rewrite Z.mul_mod_distr_l by lia.
  replace (2 * (c * (n mod d))) with (c * (2 * (n mod d))) by lia.
  destruct (Z.compare_spec (2 * (n mod d)) d) as [H|H|H];
    destruct (Z.compare_spec (c * (2 * (n mod d))) (c * d)) as [H'|H'|H'];
    try reflexivity; nia.
Qed.

Lemma round_frac_scale c a b :
  0 < c -> 0 <= a -> 0 < b -> round_frac (c * a) (c * b) = round_frac a b.
Proof.
  intros Hc Ha Hb. unfold round_frac.
  destruct (Z.eqb_spec a 0) as [->|Hne].
  - rewrite Z.mul_0_r. reflexivity.
  - destruct (Z.eqb_spec (c * a) 0); [nia|].
    rewrite frac_log2_scale by lia.
    rewrite <- !Z.mul_assoc, round_nearest_even_scale; auto.
    pose proof (pow2_pos (Z.max (frac_log2 a b - (prec - 1)) emin)). lia.
Qed.

(** The rounded quotient depends on the fraction only. *)
Lemma round_frac_ext a1 b1 a2 b2 :
  0 <= a1 -> 0 < b1 -> 0 <= a2 -> 0 < b2 ->
  a1 * b2 = a2 * b1 -> round_frac a1 b1 = round_frac a2 b2.
Proof.
  intros Ha1 Hb1 Ha2 Hb2 Heq.
  rewrite <- (round_frac_scale b2 a1 b1) by assumption.
  rewrite <- (round_frac_scale b1 a2 b2) by assumption.
  f_equal; lia.
Qed.

Lemma round_nearest_even_le n d c :
  0 < d -> n <= c * d -> round_nearest_even n d <= c.
Proof.
  intros Hd Hle. unfold round_nearest_even.
  pose proof (Z.div_mod n d ltac:(lia)) as Hdm.
  pose proof (Z.mod_pos_bound n d Hd) as Hr.
  assert (n / d < c \/ (n / d = c /\ n mod d = 0)) as [Hq|[Hq Hz]] by nia.
  - destruct (2 * (n mod d) ?= d); [destruct (Z.even (n / d))| |]; lia.
  - rewrite Hz, Hq. simpl. destruct d; lia.
Qed.

Lemma round_nearest_even_ge n d c :
  0 < d -> c * d <= n -> c <= round_nearest_even n d.
Proof.
  intros Hd Hle. unfold round_nearest_even.
  pose proof (Z.div_mod n d ltac:(lia)) as Hdm.
  pose proof (Z.mod_pos_bound n d Hd) as Hr.
  assert (c <= n / d) by nia.
  destruct (2 * (n mod d) ?= d); [destruct (Z.even (n / d))| |]; lia.
Qed.

Lemma frac_le_shift a b M t e :
  0 < b -> e <= t -> frac_le a b M t ->
  a * pow2 (- e) <= M * 2 ^ (t - e) * (b * pow2 e).
Proof.
  unfold frac_le. intros Hb Hle H.
  pose proof (pow2_shift e (t - e) ltac:(lia)) as Hs.
  replace (e + (t - e)) with t in Hs by lia.
  pose proof (pow2_pos (- t)) as Pt.
  apply (Z.mul_le_mono_pos_r _ _ (pow2 (- t))); [assumption|].
  replace (M * 2 ^ (t - e) * (b * pow2 e) * pow2 (- t))
    with (M * b * (2 ^ (t - e) * pow2 e * pow2 (- t))) by ring.
  rewrite <- Hs.
  pose proof (pow2_pos (- e)). nia.
Qed.

Lemma frac_log2_le a b M t :
  0 < a -> 0 < b -> 0 < M < 2 ^ prec -> frac_le a b M t ->
  frac_log2 a b <= t + (prec - 1).
Proof.
  intros Ha Hb HM Hle.
  destruct (Z.le_gt_cases (frac_log2 a b) (t + (prec - 1))) as [|Hgt];
    [assumption|exfalso].
  destruct (frac_log2_spec a b Ha Hb) as [Hge _].
  apply (frac_ge_pow2_mono a b (t + prec)) in Hge; [|lia|assumption|lia].
  rewrite frac_ge_pow2_spec in Hge.
  pose proof (frac_le_shift a b M (t + prec) (t + prec) Hb ltac:(lia)) as _.
  unfold frac_le in Hle.
  pose proof (pow2_shift t prec ltac:(unfold prec; lia)) as Hs.
  pose proof (pow2_pos t). pose proof (pow2_pos (- t)).
  pose proof (pow2_pos (t + prec)). pose proof (pow2_pos (- (t + prec))).
  assert (b * (pow2 (t + prec) * pow2 (- t))
          <= M * b * pow2 t * pow2 (- (t + prec))) as Hc by nia.
  rewrite Hs in Hc.
  assert (0 < b * pow2 t * pow2 (- (t + prec))) by nia.
  nia.
Qed.

(** Rounding never passes a float above the fraction. *)
Lemma round_frac_le a b M t :
  0 <= a -> 0 < b -> 0 < M < 2 ^ prec -> emin <= t <= emax ->
  frac_le a b M t ->
  exists m e, round_frac a b = Some (m, e) /\
              0 <= m /\ emin <= e <= t /\ m <= M * 2 ^ (t - e).
Proof.
  intros Ha Hb HM Ht Hle. unfold round_frac.
  destruct (Z.eqb_spec a 0) as [->|Hne].
  - exists 0, emin.
    pose proof (Z.pow_pos_nonneg 2 (t - emin)).
    repeat apply conj; solve [reflexivity | nia].
  - pose proof (frac_log2_le a b M t ltac:(lia) Hb HM Hle) as HE.
    set (e := Z.max (frac_log2 a b - (prec - 1)) emin).
    assert (emin <= e <= t) as He by (unfold e; lia).
    pose proof (frac_le_shift a b M t e Hb ltac:(lia) Hle) as Hn.
    pose proof (pow2_pos e) as Pe. pose proof (pow2_pos (- e)) as Pe'.
    assert (0 < b * pow2 e) as Hd by (apply Z.mul_pos_pos; assumption).
    assert (0 * (b * pow2 e) <= a * pow2 (- e)) as Hn0
      by (rewrite Z.mul_0_l; apply Z.mul_nonneg_nonneg; lia).
    pose proof (round_nearest_even_le _ _ _ Hd Hn) as Hm.
    pose proof (round_nearest_even_ge _ _ _ Hd Hn0) as Hm0.
    set (m := round_nearest_even (a * pow2 (- e)) (b * pow2 e)) in *.
    destruct (Z.eqb_spec m (2 ^ prec)) as [Hcarry|Hno].
    + assert (e < t) as Hlt.
      { destruct (Z.eq_dec e t) as [->|]; [|lia].
        rewrite Z.sub_diag in Hm. simpl in Hm. lia. }
      destruct (Z.ltb_spec emax (e + 1)); [lia|].
      exists (2 ^ (prec - 1)), (e + 1).
      split; [reflexivity|]. split; [apply Z.pow_nonneg; lia|].
      split; [lia|].
      replace (t - e) with (Z.succ (t - (e + 1))) in Hm by lia.
      rewrite Z.pow_succ_r in Hm by lia.
      change (2 ^ prec) with (2 * 2 ^ (prec - 1)) in Hcarry. lia.
    + destruct (Z.ltb_spec emax e); [lia|].
      exists m, e. repeat apply conj; solve [reflexivity | lia].
Qed.

Lemma of_int_rate_scale : of_int rate_scale = Ok top_rate.
Proof. vm_compute. reflexivity. Qed.

(** The success fraction is a float between 0 and 1. *)
Lemma int_truediv_fraction k n :
  0 <= k <= n -> 0 < n ->
  exists m e, int_truediv k n = Ok (Finite false m e) /\
              round_frac k n = Some (m, e) /\
              0 <= m /\ emin <= e <= - 52 /\ m <= 2 ^ (- e).
Proof.
  intros Hk Hn. unfold int_truediv.
  destruct (Z.eqb_spec n 0); [lia|].
  destruct (Z.ltb_spec k 0); [lia|]. destruct (Z.ltb_spec n 0); [lia|].
  rewrite !Z.abs_eq by lia. simpl.
  destruct (round_frac_le k n (2 ^ 52) (- 52)) as (m & e & Hr & Hm & He & Hle);
    try (unfold prec, emin, emax; lia).
  { unfold frac_le. change (pow2 (- - 52)) with (2 ^ 52).
    change (pow2 (- 52)) with 1. nia. }
  exists m, e. rewrite Hr.
  split; [reflexivity|]. split; [reflexivity|].
  split; [lia|]. split; [lia|].
  rewrite <- Z.pow_add_r in Hle by lia.
  replace (52 + (- 52 - e)) with (- e) in Hle by lia. assumption.
Qed.

(** Scaling a fraction of at most 1 stays within the scale. *)
Lemma mul_top_rate_le m e :
  0 <= m -> emin <= e <= - 52 -> m <= 2 ^ (- e) ->
  exists m' e',
    round_frac (m * 4882812500000000 * pow2 (e + 11)) (pow2 (- (e + 11)))
    = Some (m', e') /\
    mul (Finite false m e) top_rate = Finite false m' e' /\
    leb (Finite false m' e') top_rate = true /\
    leb zero (Finite false m' e') = true.
Proof.
  intros Hm He Hle. unfold mul, top_rate.
  destruct (round_frac_le (m * 4882812500000000 * pow2 (e + 11))
              (pow2 (- (e + 11))) 4882812500000000 11)
    as (m' & e' & Hr & Hm' & He' & Hle').
  - pose proof (pow2_pos (e + 11)). nia.
  - apply pow2_pos.
  - unfold prec. lia.
  - unfold emin, emax. lia.
  - unfold frac_le. change (pow2 (Z.opp 11)) with 1.
    change (pow2 11) with (2 ^ 11).
    destruct (pow2_nonpos (e + 11) ltac:(lia)) as [-> ->].
    replace (- (e + 11)) with (- e - 11) by lia.
    assert (2 ^ (- e) = 2 ^ (- e - 11) * 2 ^ 11) as Hp.
    { rewrite <- Z.pow_add_r by lia. f_equal. lia. }
    rewrite Hp in Hle. nia.
  - exists m', e'. rewrite Hr. split; [reflexivity|]. split; [reflexivity|].
    unfold leb, signed, zero. rewrite !Z.leb_le.
    rewrite Z.min_l by lia. rewrite Z.sub_diag. simpl (2 ^ 0).
    rewrite Z.min_l by lia. rewrite Z.sub_diag. lia.
Qed.

Lemma round_nearest_even_nearest n d :
  0 < d -> 2 * Z.abs (round_nearest_even n d * d - n) <= d.
Proof.
  intros Hd. unfold round_nearest_even.
  pose proof (Z.div_mod n d ltac:(lia)) as Hdm.
  pose proof (Z.mod_pos_bound n d Hd) as Hr.
  destruct (Z.compare_spec (2 * (n mod d)) d);
    [destruct (Z.even (n / d))| |]; nia.
Qed.

Lemma frac_log2_ge a b t :
  0 < a -> 0 < b -> frac_ge_pow2 a b t = true -> t <= frac_log2 a b.
Proof.
  intros Ha Hb Hge.
  destruct (Z.le_gt_cases t (frac_log2 a b)) as [|Hlt]; [assumption|exfalso].
  destruct (frac_log2_spec a b Ha Hb) as [_ Hn].
  rewrite (frac_ge_pow2_mono a b (frac_log2 a b + 1) t) in Hn
    by (assumption || lia).
  discriminate.
Qed.

(** In the normal range rounding moves a fraction by at most [2^-53] of
    it: [|m * 2^e - a/b| <= 2^-53 * a/b]. *)
Lemma round_frac_rel_error a b m e :
  0 < a -> 0 < b -> emin + (prec - 1) <= frac_log2 a b ->
  round_frac a b = Some (m, e) ->
  close_to m e a b prec.
Proof.
  intros Ha Hb Hnormal. unfold close_to, round_frac.
  destruct (Z.eqb_spec a 0); [lia|].
  rewrite Z.max_l by lia.
  set (e0 := frac_log2 a b - (prec - 1)).
  pose proof (pow2_pos e0) as Pe. pose proof (pow2_pos (- e0)) as Pe'.
  assert (0 < b * pow2 e0) as Hd by (apply Z.mul_pos_pos; assumption).
  pose proof (round_nearest_even_nearest (a * pow2 (- e0)) (b * pow2 e0) Hd)
    as Hnear.
  set (m0 := round_nearest_even (a * pow2 (- e0)) (b * pow2 e0)) in *.
  assert (2 ^ (prec - 1) * (b * pow2 e0) <= a * pow2 (- e0)) as Hlow.
  { destruct (frac_log2_spec a b Ha Hb) as [Hge _].
    rewrite frac_ge_pow2_spec in Hge.
    pose proof (pow2_shift e0 (prec - 1) ltac:(unfold prec; lia)) as Hs.
    replace (e0 + (prec - 1)) with (frac_log2 a b) in Hs by (unfold e0; lia).
    pose proof (pow2_pos (- frac_log2 a b)) as PE.
    apply (Z.mul_le_mono_pos_r _ _ (pow2 (- frac_log2 a b))); [assumption|].
    replace (2 ^ (prec - 1) * (b * pow2 e0) * pow2 (- frac_log2 a b))
      with (b * (2 ^ (prec - 1) * pow2 e0 * pow2 (- frac_log2 a b))) by ring.
    rewrite <- Hs. nia. }
  assert (2 ^ prec * Z.abs (m0 * pow2 e0 * b - a * pow2 (- e0))
          <= a * pow2 (- e0)) as Hrel.
  { change (2 ^ prec) with (2 * 2 ^ (prec - 1)).
    replace (m0 * pow2 e0 * b) with (m0 * (b * pow2 e0)) by ring.
    assert (0 < 2 ^ (prec - 1)) by (unfold prec; simpl; lia).
    nia. }
  destruct (Z.eqb_spec m0 (2 ^ prec)) as [Hcarry|Hno].
  - destruct (emax <? e0 + 1); [discriminate|].
    intros [= <- <-].
    pose proof (pow2_shift e0 1 ltac:(lia)) as Hs.
    change (2 ^ 1) with 2 in Hs.
    pose proof (pow2_pos (e0 + 1)) as P1.
    pose proof (pow2_pos (- (e0 + 1))) as P1'.
    rewrite Hcarry in Hrel. change (2 ^ prec) with (2 * 2 ^ (prec - 1)) in Hrel at 2.
    apply (Z.mul_le_mono_pos_r _ _ (pow2 (- e0))); [assumption|].
    rewrite <- Z.mul_assoc.
    rewrite <- (Z.abs_eq (pow2 (- e0))) at 1 by lia.
    rewrite <- Z.abs_mul.
    replace ((2 ^ (prec - 1) * pow2 (e0 + 1) * b - a * pow2 (- (e0 + 1))) * pow2 (- e0))
      with ((2 * 2 ^ (prec - 1) * pow2 e0 * b - a * pow2 (- e0)) * pow2 (- (e0 + 1))).
    2:{ transitivity (2 ^ (prec - 1) * b * (pow2 (e0 + 1) * pow2 (- e0))
                      - a * pow2 (- (e0 + 1)) * pow2 (- e0));
          [rewrite Hs|]; ring. }
    rewrite Z.abs_mul, (Z.abs_eq (pow2 (- (e0 + 1)))) by lia.
    nia.
  - destruct (emax <? e0); [discriminate|].
    intros [= <- <-]. exact Hrel.
Qed.

(** Two roundings in a row: [F/G] is [k/N] rounded, [a/b] is [C * F/G]
    and [R/S] is [a/b] rounded; then [R/S] is within [2^-51] of
    [C * k/N]. *)
Lemma rel_error_twice k N F G a b R S C :
  0 <= k -> 0 < N -> 0 < G -> 0 < b -> 0 < S -> 0 <= C ->
  2 ^ 53 * Z.abs (F * N - k * G) <= k * G ->
  2 ^ 53 * Z.abs (R * b - a * S) <= a * S ->
  a * G = C * F * b ->
  2 ^ 51 * Z.abs (R * N - C * k * S) <= C * k * S.
Proof.
  intros Hk HN HG Hb HS HC H1 H2 H3.
  assert (0 < G * b) as Hpos by (apply Z.mul_pos_pos; assumption).
  apply (Z.mul_le_mono_pos_r _ _ (G * b)); [assumption|].
  set (A := C * k * S * (G * b)).
  set (U := N * G * Z.abs (R * b - a * S)).
  set (V := S * C * b * Z.abs (F * N - k * G)).
  assert (Z.abs (R * N - C * k * S) * (G * b) <= U + V) as Htri.
  { rewrite <- (Z.abs_eq (G * b)) at 1 by lia. rewrite <- Z.abs_mul.
    replace ((R * N - C * k * S) * (G * b))
      with (N * G * (R * b - a * S) + S * C * b * (F * N - k * G))
      by (ring_simplify; replace (N * G * a * S) with (N * S * (a * G)) by ring;
          rewrite H3; ring).
    eapply Z.le_trans; [apply Z.abs_triangle|].
    unfold U, V.
    rewrite (Z.abs_mul (N * G)), (Z.abs_mul (S * C * b)).
    rewrite (Z.abs_eq (N * G)), (Z.abs_eq (S * C * b)) by nia. lia. }
  assert (2 ^ 53 * V <= A) as HV.
  { unfold V, A.
    replace (2 ^ 53 * (S * C * b * Z.abs (F * N - k * G)))
      with (S * C * b * (2 ^ 53 * Z.abs (F * N - k * G))) by ring.
    replace (C * k * S * (G * b)) with (S * C * b * (k * G)) by ring.
    apply Z.mul_le_mono_nonneg_l; [nia|assumption]. }
  assert (2 ^ 53 * U <= A + V) as HU.
  { unfold U.
    replace (2 ^ 53 * (N * G * Z.abs (R * b - a * S)))
      with (N * G * (2 ^ 53 * Z.abs (R * b - a * S))) by ring.
    transitivity (N * G * (a * S)).
    { apply Z.mul_le_mono_nonneg_l; [nia|assumption]. }
    replace (N * G * (a * S)) with (S * C * b * (F * N))
      by (replace (N * G * (a * S)) with (N * S * (a * G)) by ring;
          rewrite H3; ring).
    unfold A, V.
    replace (C * k * S * (G * b)) with (S * C * b * (k * G)) by ring.
    rewrite <- Z.mul_add_distr_l.
    apply Z.mul_le_mono_nonneg_l; [nia|lia]. }
  assert (0 <= V) by (unfold V; apply Z.mul_nonneg_nonneg; [nia|lia]).
  fold A. lia.
Qed.

End FloatFacts.

(** ** The store's operations *)

Lemma in_logical_order_spec c d a r :
  in_logical_order c d a r = true <-> c <= d /\ d <= a /\ a <= r.
Proof.
  unfold in_logical_order. rewrite !andb_true_iff, !Z.leb_le. tauto.
Qed.

Lemma well_orderedb_spec r : well_orderedb r = true <-> well_ordered r.
Proof. apply in_logical_order_spec. Qed.

Lemma in_timeframe_spec t1 t2 r :
  in_timeframe t1 t2 r = true <-> t1 <= call_time r <= t2.
Proof. unfold in_timeframe. rewrite andb_true_iff, !Z.leb_le. tauto. Qed.

Lemma store_eta s : {| call_logs := call_logs s |} = s.
Proof. destruct s. reflexivity. Qed.

Lemma add_call_log_ok s id c d a r ok :
  in_logical_order c d a r = true ->
  add_call_log id c d a r ok s
  = (Ok tt, {| call_logs := call_logs s ++ [mkCall id c d a r ok] |}).
Proof. intros H. unfold add_call_log. rewrite H. reflexivity. Qed.

Lemma add_call_log_raise s id c d a r ok :
  in_logical_order c d a r = false ->
  add_call_log id c d a r ok s = (Raise (ValueError msg_ordering), s).
Proof. intros H. unfold add_call_log. rewrite H. reflexivity. Qed.

Lemma add_record_ok s r :
  well_ordered r ->
  add_call_log (call_id r) (call_time r) (dispatch_time r) (arrival_time r)
               (resolution_time r) (success r) s
  = (Ok tt, {| call_logs := call_logs s ++ [r] |}).
Proof.
  intros H. rewrite add_call_log_ok by (apply well_orderedb_spec, H).
  destruct r. reflexivity.
Qed.

Lemma add_record_raise s r :
  ~ well_ordered r ->
  add_call_log (call_id r) (call_time r) (dispatch_time r) (arrival_time r)
               (resolution_time r) (success r) s
  = (Raise (ValueError msg_ordering), s).
Proof.
  intros H. apply add_call_log_raise.
  apply not_true_is_false. rewrite (well_orderedb_spec r). exact H.
Qed.

Lemma add_multiple_all_valid calls : forall s,
  Forall well_ordered calls ->
  add_multiple_call_logs calls s
  = (Ok tt, {| call_logs := call_logs s ++ calls |}).
Proof.
  induction calls as [|r calls IH]; intros s Hall.
  - simpl. unfold ret. rewrite app_nil_r, store_eta. reflexivity.
  - inversion Hall as [|? ? Hr Hrest]; subst.
    simpl. unfold bind. rewrite add_record_ok by assumption.
    rewrite IH by assumption. simpl. rewrite <- app_assoc. reflexivity.
Qed.

Lemma add_multiple_first_invalid pre bad post s :
  Forall well_ordered pre -> ~ well_ordered bad ->
  add_multiple_call_logs (pre ++ bad :: post) s
  = (Raise (ValueError msg_ordering), {| call_logs := call_logs s ++ pre |}).
Proof.
  revert s. induction pre as [|r pre IH]; intros s Hall Hbad.
  - simpl. unfold bind. rewrite add_record_raise by assumption.
    rewrite app_nil_r, store_eta. reflexivity.
  - inversion Hall as [|? ? Hr Hrest]; subst.
    simpl. unfold bind. rewrite add_record_ok by assumption.
    rewrite IH by assumption. simpl. rewrite <- app_assoc. reflexivity.
Qed.

(** Every list of records is all valid or has a first invalid one. *)
Lemma first_invalid (calls : list CallRecord) :
  Forall well_ordered calls \/
  exists pre bad post, calls = pre ++ bad :: post /\
                       Forall well_ordered pre /\ ~ well_ordered bad.
Proof.
  induction calls as [|r calls IH]; [left; constructor|].
  destruct (well_orderedb r) eqn:Hr.
  - apply well_orderedb_spec in Hr. destruct IH as [IH|(pre & bad & post & -> & Hp & Hb)].
    + left. constructor; assumption.
    + right. exists (r :: pre), bad, post. repeat apply conj; auto.
  - right. exists [], r, calls. repeat apply conj; auto.
    rewrite <- well_orderedb_spec, Hr. discriminate.
Qed.

Lemma fold_left_sum {A} (f : A -> Z) (l : list A) : forall acc,
  fold_left (fun total x => total + f x) l acc = acc + sum_Z (map f l).
Proof.
  induction l as [|x l IH]; intros acc; simpl; [lia|].
  rewrite IH. lia.
Qed.

Lemma count_success_successes logs :
  count_success logs = Z.of_nat (successes logs).
Proof.
  unfold count_success. rewrite fold_left_sum, Z.add_0_l.
  induction logs as [|r logs IH]; [reflexivity|].
  cbn [map sum_Z successes]. rewrite IH. destruct (success r); simpl Z.b2z; lia.
Qed.

Lemma successes_le logs : (successes logs <= length logs)%nat.
Proof.
  induction logs as [|r logs IH]; simpl; [lia|].
  destruct (success r); lia.
Qed.

Lemma successes_all_failed logs :
  Forall (fun r => success r = false) logs -> successes logs = O.
Proof.
  induction 1 as [|r logs Hr _ IH]; simpl; [reflexivity|].
  rewrite Hr. exact IH.
Qed.

Lemma successes_all_successful logs :
  Forall (fun r => success r = true) logs -> successes logs = length logs.
Proof.
  induction 1 as [|r logs Hr _ IH]; simpl; [reflexivity|].
  rewrite Hr, IH. reflexivity.
Qed.

Lemma len_pos {A} (l : list A) : l <> [] -> 0 < len l.
Proof. destruct l; [congruence|]. unfold len. simpl. lia. Qed.

(** *** The range of [timedelta] and the two averages *)

Lemma in_timedelta_range_days us :
  in_timedelta_range us
  <-> - max_delta_days <= us / Calendar.us_per_day <= max_delta_days.
Proof.
  unfold in_timedelta_range, timedelta_min, timedelta_max, max_delta_days.
  change Calendar.us_per_day with 86400000000.
  pose proof (Z.div_mod us 86400000000 ltac:(lia)) as Hdm.
  pose proof (Z.mod_pos_bound us 86400000000 ltac:(lia)) as Hr.
  lia.
Qed.

Lemma in_timedelta_range_dec us :
  {in_timedelta_range us} + {~ in_timedelta_range us}.
Proof.
  unfold in_timedelta_range.
  destruct (Z_le_dec timedelta_min us), (Z_le_dec us timedelta_max);
    [left|right|right|right]; lia.
Qed.

Lemma totals_in_range_dec durations : forall total,
  {totals_in_range durations total} + {~ totals_in_range durations total}.
Proof.
  induction durations as [|d ds IH]; intros total; simpl; [left; exact I|].
  destruct (in_timedelta_range_dec d); [|right; tauto].
  destruct (in_timedelta_range_dec (total + d)); [|right; tauto].
  destruct (IH (total + d)); [left|right]; tauto.
Qed.

Lemma new_delta_ok us : in_timedelta_range us -> new_delta us = Ok us.
Proof.
  intros H. apply in_timedelta_range_days in H. unfold new_delta.
  destruct (Z.leb_spec (- max_delta_days) (us / Calendar.us_per_day)); [|lia].
  destruct (Z.leb_spec (us / Calendar.us_per_day) max_delta_days); [|lia].
  reflexivity.
Qed.

Lemma new_delta_raise us :
  ~ in_timedelta_range us ->
  new_delta us = Raise (OverflowError_timedelta (us / Calendar.us_per_day)) /\
  max_delta_days < Z.abs (us / Calendar.us_per_day).
Proof.
  intros H. rewrite in_timedelta_range_days in H. unfold new_delta.
  destruct (Z.leb_spec (- max_delta_days) (us / Calendar.us_per_day));
    destruct (Z.leb_spec (us / Calendar.us_per_day) max_delta_days);
    simpl; try lia; (split; [reflexivity|]); unfold max_delta_days in *; lia.
Qed.

Lemma total_duration_ok until logs : forall total,
  totals_in_range (map (fun r => until r - call_time r) logs) total ->
  total_duration until logs total
  = Ok (total + sum_Z (map (fun r => until r - call_time r) logs)).
Proof.
  induction logs as [|r logs IH]; intros total Hin; simpl.
  - rewrite Z.add_0_r. reflexivity.
  - destruct Hin as (Hd & Ht & Hrest).
    unfold datetime_sub, timedelta_add.
    rewrite (new_delta_ok _ Hd), (new_delta_ok _ Ht), (IH _ Hrest).
    f_equal. lia.
Qed.

Lemma total_duration_raise until logs : forall total,
  ~ totals_in_range (map (fun r => until r - call_time r) logs) total ->
  exists days,
    total_duration until logs total = Raise (OverflowError_timedelta days) /\
    max_delta_days < Z.abs days.
Proof.
  induction logs as [|r logs IH]; intros total Hout; simpl in *.
  - exfalso. apply Hout. exact I.
  - unfold datetime_sub, timedelta_add.
    destruct (in_timedelta_range_dec (until r - call_time r)) as [Hd|Hd].
    + rewrite (new_delta_ok _ Hd).
      destruct (in_timedelta_range_dec (total + (until r - call_time r)))
        as [Ht|Ht].
      * rewrite (new_delta_ok _ Ht). apply IH. tauto.
      * destruct (new_delta_raise _ Ht) as [-> Hbig]. eauto.
    + destruct (new_delta_raise _ Hd) as [-> Hbig]. eauto.
Qed.

Lemma totals_in_range_sum durations : forall total,
  in_timedelta_range total -> totals_in_range durations total ->
  in_timedelta_range (total + sum_Z durations).
Proof.
  induction durations as [|d ds IH]; intros total Ht Hin; simpl.
  - rewrite Z.add_0_r. exact Ht.
  - destruct Hin as (_ & Ht' & Hrest).
    rewrite Z.add_assoc. apply IH; assumption.
Qed.

(** Durations that are not negative stay in range as long as their sum
    does. *)
Lemma totals_in_range_nonneg durations : forall total,
  Forall (fun d => 0 <= d) durations -> 0 <= total ->
  total + sum_Z durations <= timedelta_max ->
  totals_in_range durations total.
Proof.
  induction durations as [|d ds IH]; intros total Hpos Ht Hsum; simpl;
    [exact I|].
  inversion Hpos as [|? ? Hd Hds]; subst. simpl in Hsum.
  assert (0 <= sum_Z ds) as Hs.
  { clear -Hds. induction Hds; simpl; lia. }
  assert (timedelta_min <= 0) as Hmin by (vm_compute; discriminate).
  unfold in_timedelta_range.
  repeat apply conj; try lia.
  apply IH; [assumption|lia|lia].
Qed.

Lemma zero_in_timedelta_range : in_timedelta_range 0.
Proof. unfold in_timedelta_range. split; vm_compute; discriminate. Qed.

Lemma divide_and_round_in_range t n :
  0 < n -> in_timedelta_range t -> in_timedelta_range (divide_and_round t n).
Proof.
  intros Hn Ht. pose proof (divide_and_round_nearest t n Hn) as Hnear.
  pose proof zero_in_timedelta_range as H0.
  unfold in_timedelta_range in *.
  assert (Z.min 0 t <= divide_and_round t n <= Z.max 0 t) by nia.
  lia.
Qed.

Lemma average_eq until msg s :
  call_logs s <> [] ->
  totals_in_range (map (fun r => until r - call_time r) (call_logs s)) 0 ->
  bind get (fun self =>
    match call_logs self with
    | [] => raise (ValueError msg)
    | _ :: _ =>
        bind (lift (total_duration until (call_logs self) 0))
             (fun total => lift (timedelta_truediv total (len (call_logs self))))
    end) s
  = (Ok (divide_and_round
           (sum_Z (map (fun r => until r - call_time r) (call_logs s)))
           (len (call_logs s))), s).
Proof.
  intros Hne Hin. pose proof (len_pos _ Hne) as Hlen.
  pose proof (totals_in_range_sum _ 0 zero_in_timedelta_range Hin) as Hsum.
  rewrite Z.add_0_l in Hsum.
  unfold bind, get, lift, timedelta_truediv.
  destruct (call_logs s) as [|r logs] eqn:E; [congruence|].
  rewrite (total_duration_ok _ _ _ Hin), Z.add_0_l.
  destruct (Z.eqb_spec (len (r :: logs)) 0); [lia|].
  rewrite new_delta_ok; [reflexivity|].
  apply divide_and_round_in_range; assumption.
Qed.

Lemma average_overflow until msg s :
  call_logs s <> [] ->
  ~ totals_in_range (map (fun r => until r - call_time r) (call_logs s)) 0 ->
  exists days,
    bind get (fun self =>
      match call_logs self with
      | [] => raise (ValueError msg)
      | _ :: _ =>
          bind (lift (total_duration until (call_logs self) 0))
               (fun total => lift (timedelta_truediv total (len (call_logs self))))
      end) s
    = (Raise (OverflowError_timedelta days), s) /\
    max_delta_days < Z.abs days.
Proof.
  intros Hne Hout.
  destruct (total_duration_raise _ _ _ Hout) as (days & Hr & Hbig).
  exists days. split; [|exact Hbig].
  unfold bind, get, lift.
  destruct (call_logs s) as [|r logs] eqn:E; [congruence|].
  rewrite Hr. reflexivity.
Qed.

Lemma average_response_time_eq s :
  call_logs s <> [] ->
  totals_in_range (map response_duration (call_logs s)) 0 ->
  average_response_time s
  = (Ok (divide_and_round (sum_Z (map response_duration (call_logs s)))
                          (len (call_logs s))), s).
Proof. apply (average_eq arrival_time). Qed.

Lemma average_resolution_time_eq s :
  call_logs s <> [] ->
  totals_in_range (map resolution_duration (call_logs s)) 0 ->
  average_resolution_time s
  = (Ok (divide_and_round (sum_Z (map resolution_duration (call_logs s)))
                          (len (call_logs s))), s).
Proof. apply (average_eq resolution_time). Qed.

Lemma average_response_time_overflow s :
  call_logs s <> [] ->
  ~ totals_in_range (map response_duration (call_logs s)) 0 ->
  exists days,
    average_response_time s = (Raise (OverflowError_timedelta days), s) /\
    max_delta_days < Z.abs days.
Proof. apply (average_overflow arrival_time). Qed.

Lemma average_resolution_time_overflow s :
  call_logs s <> [] ->
  ~ totals_in_range (map resolution_duration (call_logs s)) 0 ->
  exists days,
    average_resolution_time s = (Raise (OverflowError_timedelta days), s) /\
    max_delta_days < Z.abs days.
Proof. apply (average_overflow resolution_time). Qed.

(** The records of a store filled through the methods have durations that
    are not negative; their totals are in range as soon as the sum of the
    resolution durations is. *)
Lemma well_ordered_totals_in_range logs :
  Forall well_ordered logs ->
  sum_Z (map resolution_duration logs) <= timedelta_max ->
  totals_in_range (map response_duration logs) 0 /\
  totals_in_range (map resolution_duration logs) 0.
Proof.
  intros Hall Hsum.
  assert (sum_Z (map response_duration logs)
          <= sum_Z (map resolution_duration logs)) as Hle.
  { clear Hsum. induction Hall as [|r l (H1 & H2 & H3) _ IH]; simpl; [lia|].
    unfold response_duration at 1, resolution_duration at 1. lia. }
  split; apply totals_in_range_nonneg; try lia.
  - apply List.Forall_map. eapply Forall_impl; [exact Hall|].
    intros r (H1 & H2 & H3). unfold response_duration. lia.
  - apply List.Forall_map. eapply Forall_impl; [exact Hall|].
    intros r (H1 & H2 & H3). unfold resolution_duration. lia.
Qed.

Lemma success_rate_eq s :
  call_logs s <> [] ->
  success_rate s
  = (match Float.int_truediv (Z.of_nat (successes (call_logs s)))
                             (len (call_logs s)) with
     | Ok fraction => Ok (Float.mul fraction Float.top_rate)
     | Raise e => Raise e
     end, s).
Proof.
  intros Hne.
  unfold success_rate, bind, get, lift, ret, Float.mul_int.
  rewrite FloatFacts.of_int_rate_scale.
  destruct (call_logs s) as [|r logs] eqn:E; [congruence|].
  rewrite count_success_successes.
  destruct (Float.int_truediv _ _); reflexivity.
Qed.

(** The queries leave the store as it is. *)
Lemma average_response_time_frame s : snd (average_response_time s) = s.
Proof.
  unfold average_response_time, bind, get, lift, raise.
  destruct (call_logs s) as [|r logs]; [reflexivity|].
  destruct (total_duration arrival_time (r :: logs) 0); reflexivity.
Qed.

Lemma average_resolution_time_frame s : snd (average_resolution_time s) = s.
Proof.
  unfold average_resolution_time, bind, get, lift, raise.
  destruct (call_logs s) as [|r logs]; [reflexivity|].
  destruct (total_duration resolution_time (r :: logs) 0); reflexivity.
Qed.

Lemma success_rate_frame s : snd (success_rate s) = s.
Proof.
  unfold success_rate, bind, get, lift, raise, ret.
  destruct (call_logs s); [reflexivity|].
  destruct (Float.int_truediv _ _) as [fraction|e]; [|reflexivity].
  destruct (Float.mul_int fraction rate_scale); reflexivity.
Qed.

Lemma calls_in_timeframe_frame t1 t2 s : snd (calls_in_timeframe t1 t2 s) = s.
Proof. reflexivity. Qed.

Lemma add_call_log_invariant id c d a r ok s :
  Forall well_ordered (call_logs s) ->
  Forall well_ordered (call_logs (snd (add_call_log id c d a r ok s))).
Proof.
  intros Hinv. destruct (in_logical_order c d a r) eqn:Ho.
  - rewrite add_call_log_ok by assumption. simpl.
    apply Forall_app. split; [assumption|].
    constructor; [|constructor]. apply in_logical_order_spec in Ho. exact Ho.
  - rewrite add_call_log_raise by assumption. assumption.
Qed.

Lemma add_multiple_call_logs_invariant calls : forall s,
  Forall well_ordered (call_logs s) ->
  Forall well_ordered (call_logs (snd (add_multiple_call_logs calls s))).
Proof.
  intros s Hinv.
  destruct (first_invalid calls) as [Hall|(pre & bad & post & -> & Hp & Hb)].
  - rewrite add_multiple_all_valid by assumption. simpl.
    apply Forall_app. split; assumption.
  - rewrite add_multiple_first_invalid by assumption. simpl.
    apply Forall_app. split; assumption.
Qed.

Lemma run_call_invariant c s :
  Forall well_ordered (call_logs s) ->
  Forall well_ordered (call_logs (run_call c s)).
Proof.
  intros Hinv. destruct c; simpl.
  - apply add_call_log_invariant, Hinv.
  - apply add_multiple_call_logs_invariant, Hinv.
  - rewrite average_response_time_frame. exact Hinv.
  - rewrite average_resolution_time_frame. exact Hinv.
  - rewrite success_rate_frame. exact Hinv.
  - exact Hinv.
Qed.

Lemma filter_sublist {A} (p : A -> bool) (l : list A) :
  sublist (List.filter p l) l.
Proof.
  induction l as [|x l IH]; simpl; [constructor|].
  destruct (p x); constructor; assumption.
Qed.

Lemma count_occ_filter (p : CallRecord -> bool) (l : list CallRecord) r :
  count_occ CallRecord_eq_dec (List.filter p l) r
  = if p r then count_occ CallRecord_eq_dec l r else O.
Proof.
  induction l as [|x l IH]; simpl; [destruct (p r); reflexivity|].
  destruct (p x) eqn:Hx; simpl; destruct (CallRecord_eq_dec x r) as [->|Hne];
    rewrite IH; try reflexivity.
  - rewrite Hx. reflexivity.
  - rewrite Hx. reflexivity.
Qed.

(** ** The success rate *)

Section SuccessRate.
Import Float FloatFacts.

Lemma int_truediv_ext a1 b1 a2 b2 :
  0 <= a1 -> 0 < b1 -> 0 <= a2 -> 0 < b2 -> a1 * b2 = a2 * b1 ->
  int_truediv a1 b1 = int_truediv a2 b2.
Proof.
  intros Ha1 Hb1 Ha2 Hb2 Heq. unfold int_truediv.
  destruct (Z.eqb_spec b1 0); [lia|]. destruct (Z.eqb_spec b2 0); [lia|].
  destruct (Z.ltb_spec a1 0); [lia|]. destruct (Z.ltb_spec a2 0); [lia|].
  destruct (Z.ltb_spec b1 0); [lia|]. destruct (Z.ltb_spec b2 0); [lia|].
  rewrite !Z.abs_eq by lia.
  rewrite (round_frac_ext a1 b1 a2 b2) by assumption.
  reflexivity.
Qed.

Lemma int_truediv_zero n : 0 < n -> int_truediv 0 n = Ok zero.
Proof.
  intros Hn. unfold int_truediv.
  destruct (Z.eqb_spec n 0); [lia|]. destruct (Z.ltb_spec n 0); [lia|].
  reflexivity.
Qed.

Lemma int_truediv_one n : 0 < n -> int_truediv n n = Ok one.
Proof.
  intros Hn. rewrite (int_truediv_ext n n 1 1) by lia. reflexivity.
Qed.

Lemma mul_zero_top_rate : mul zero top_rate = zero.
Proof. vm_compute. reflexivity. Qed.

Lemma mul_one_top_rate : mul one top_rate = top_rate.
Proof. vm_compute. reflexivity. Qed.

(** The rate is the scale times the success fraction up to the two
    roundings: within [2^-51] of [10^19 * k / N]. *)
Lemma success_rate_close s :
  call_logs s <> [] -> len (call_logs s) <= 2 ^ 1022 ->
  exists m e,
    success_rate s = (Ok (Finite false m e), s) /\
    close_to m e (rate_scale * Z.of_nat (successes (call_logs s)))
             (len (call_logs s)) 51.
Proof.
  intros Hne Hsize. rewrite success_rate_eq by assumption.
  pose proof (successes_le (call_logs s)) as Hk.
  pose proof (len_pos _ Hne) as HN.
  set (k := Z.of_nat (successes (call_logs s))) in *.
  set (N := len (call_logs s)) in *.
  assert (0 <= k <= N) as Hkn by (unfold k, N, len; lia).
  destruct (Z.eq_dec k 0) as [Hz|Hnz].
  - rewrite Hz, int_truediv_zero, mul_zero_top_rate by assumption.
    exists 0, emin. split; [reflexivity|]. unfold close_to.
    rewrite Z.mul_0_r. simpl. lia.
  - destruct (int_truediv_fraction k N Hkn HN)
      as (m1 & e1 & Hq & Hr1 & Hm1 & He1 & Hle1).
    assert (close_to m1 e1 k N prec) as Hc1.
    { apply round_frac_rel_error; try lia; [|assumption].
      apply frac_log2_ge; try lia.
      apply frac_ge_pow2_spec.
      change (pow2 (emin + (prec - 1))) with 1.
      change (pow2 (- (emin + (prec - 1)))) with (2 ^ 1022). lia. }
    pose proof (pow2_pos e1) as P1. pose proof (pow2_pos (- e1)) as Q1.
    assert (1 <= m1) as Hm1pos.
    { destruct (Z.eq_dec m1 0) as [->|]; [|lia].
      unfold close_to in Hc1. rewrite Z.mul_0_l in Hc1. simpl in Hc1.
      rewrite Z.abs_opp, Z.abs_eq in Hc1 by nia.
      assert (0 < k * pow2 (- e1)) by nia.
      change (2 ^ prec) with 9007199254740992 in Hc1. lia. }
    destruct (mul_top_rate_le m1 e1 Hm1 He1 Hle1)
      as (m2 & e2 & Hr2 & Hmul & _ & _).
    destruct (pow2_nonpos (e1 + 11) ltac:(lia)) as [Hp Hp'].
    pose proof (pow2_pos (- (e1 + 11))) as Pb.
    assert (close_to m2 e2 (m1 * 4882812500000000 * pow2 (e1 + 11))
                     (pow2 (- (e1 + 11))) prec) as Hc2.
    { apply round_frac_rel_error; try assumption; [rewrite Hp; lia|].
      apply frac_log2_ge; try assumption; [rewrite Hp; lia|].
      apply frac_ge_pow2_spec.
      change (pow2 (emin + (prec - 1))) with 1.
      change (pow2 (- (emin + (prec - 1)))) with (2 ^ 1022).
      rewrite Hp, Hp'.
      assert (2 ^ (- (e1 + 11)) <= 2 ^ 1063) as Hpow
        by (apply Z.pow_le_mono_r; unfold emin in He1; lia).
      assert (2 ^ 1063 <= 4882812500000000 * 2 ^ 1022) as Hbig
        by (vm_compute; discriminate).
      assert (0 < 2 ^ 1022) by (apply Z.pow_pos_nonneg; lia).
      nia. }
    exists m2, e2. rewrite Hq, Hmul. split; [reflexivity|].
    unfold close_to in *.
    pose proof (pow2_pos (- e2)) as Q2.
    apply (rel_error_twice k N (m1 * pow2 e1) (pow2 (- e1))
             (m1 * 4882812500000000 * pow2 (e1 + 11)) (pow2 (- (e1 + 11)))
             (m2 * pow2 e2) (pow2 (- e2)) rate_scale);
      try assumption; try lia; try exact Hc1; try exact Hc2.
    + unfold rate_scale. lia.
    + pose proof (pow2_shift e1 11 ltac:(lia)) as Hs.
      replace (m1 * 4882812500000000 * pow2 (e1 + 11) * pow2 (- e1))
        with (m1 * 4882812500000000 * (pow2 (e1 + 11) * pow2 (- e1))) by ring.
      rewrite Hs. unfold rate_scale. change (2 ^ 11) with 2048. ring.
Qed.

End SuccessRate.

(** ** Agreement with the Standard Library's binary64 *)

Example int_truediv_agrees_with_SFdiv :
  map (fun p => result_to_spec_float (Float.int_truediv (fst p) (snd p)))
      sample_fractions
  = map (fun p => reference_truediv (fst p) (snd p)) sample_fractions.
Proof. vm_compute. reflexivity. Qed.

Example mul_int_agrees_with_SFmul :
  map (fun p => match Float.int_truediv (fst p) (snd p) with
                | Ok x => result_to_spec_float (Float.mul_int x rate_scale)
                | Raise _ => S754_nan
                end) sample_fractions
  = map (fun p => match Float.int_truediv (fst p) (snd p) with
                  | Ok x => reference_mul_int x rate_scale
                  | Raise _ => S754_nan
                  end) sample_fractions.
Proof. vm_compute. reflexivity. Qed.

(** * The claims *)

(** C1: [add_call_log] checks the four-way chronological order.  When
    [call_time <= dispatch_time <= arrival_time <= resolution_time] fails it
    raises the ordering error ([ValueError] with the ordering message) and
    the store's records are what they were; when it holds the call returns
    and exactly one record, made of the arguments, is appended at the end. *)
Theorem add_call_log_validates s id c d a r ok :
  (~ (c <= d /\ d <= a /\ a <= r) ->
   add_call_log id c d a r ok s = (Raise (ValueError msg_ordering), s) /\
   is_InvalidOrderingError (ValueError msg_ordering) = true)
  /\
  (c <= d /\ d <= a /\ a <= r ->
   add_call_log id c d a r ok s
   = (Ok tt, {| call_logs := call_logs s ++ [mkCall id c d a r ok] |})).
Proof.
  split; intros H.
  - split; [|reflexivity]. apply add_call_log_raise.
    apply not_true_is_false. rewrite in_logical_order_spec. exact H.
  - apply add_call_log_ok, in_logical_order_spec, H.
Qed.

Lemma add_call_log_validates_witness :
  add_call_log 4 10 9 20 30 true (mkStore Demo.calls)
  = (Raise (ValueError msg_ordering), mkStore Demo.calls)
  /\ add_call_log 4 10 11 20 30 true (mkStore Demo.calls)
     = (Ok tt, mkStore (Demo.calls ++ [mkCall 4 10 11 20 30 true])).
Proof.
  split.
  - apply (proj1 (add_call_log_validates (mkStore Demo.calls) 4 10 9 20 30 true)).
    lia.
  - apply (proj2 (add_call_log_validates (mkStore Demo.calls) 4 10 11 20 30 true)).
    lia.
Defined.



(** One record fewer and the total is still in range: the average of 273
    such calls is the span of one. *)
Example average_response_time_273 :
  average_response_time (mkStore (repeat Demo.longest_call 273))
  = (Ok 315537897599999999, mkStore (repeat Demo.longest_call 273)).
Proof. vm_compute. reflexivity. Qed.


(** C4: on a store without records the two averages and the rate raise the
    empty-store error ([ValueError] with a "No call logs available" message)
    and leave the store empty, while [calls_in_timeframe] returns the empty
    list; [calls_in_timeframe] returns on every store, so it is the one
    query that never fails. *)
Theorem empty_store_queries s :
  call_logs s = [] ->
  average_response_time s = (Raise (ValueError msg_empty_response), s) /\
  average_resolution_time s = (Raise (ValueError msg_empty_resolution), s) /\
  success_rate s = (Raise (ValueError msg_empty_rate), s) /\
  is_EmptyStoreError (ValueError msg_empty_response) = true /\
  is_EmptyStoreError (ValueError msg_empty_resolution) = true /\
  is_EmptyStoreError (ValueError msg_empty_rate) = true /\
  (forall t1 t2, calls_in_timeframe t1 t2 s = (Ok [], s)) /\
  (forall s' t1 t2, exists l, calls_in_timeframe t1 t2 s' = (Ok l, s')).
Proof.
  intros He.
  unfold average_response_time, average_resolution_time, success_rate,
    calls_in_timeframe, bind, get, raise, ret.
  rewrite He. repeat apply conj; try reflexivity.
  intros s' t1 t2. eexists. reflexivity.
Qed.

Lemma empty_store_queries_witness :
  average_response_time init = (Raise (ValueError msg_empty_response), init) /\
  average_resolution_time init = (Raise (ValueError msg_empty_resolution), init) /\
  success_rate init = (Raise (ValueError msg_empty_rate), init) /\
  is_EmptyStoreError (ValueError msg_empty_response) = true /\
  is_EmptyStoreError (ValueError msg_empty_resolution) = true /\
  is_EmptyStoreError (ValueError msg_empty_rate) = true /\
  (forall t1 t2, calls_in_timeframe t1 t2 init = (Ok [], init)) /\
  (forall s' t1 t2, exists l, calls_in_timeframe t1 t2 s' = (Ok l, s')).
Proof. apply (empty_store_queries init). reflexivity. Defined.

(** C5: [calls_in_timeframe(start, end)] always returns; its result holds
    exactly the records with [start <= call_time <= end] (each as often as
    the store holds it), in the order of the store, of which it is a
    subsequence; it is empty when no record matches, in particular on the
    empty store. *)
Theorem calls_in_timeframe_exact s t1 t2 :
  exists l,
    calls_in_timeframe t1 t2 s = (Ok l, s) /\
    sublist l (call_logs s) /\
    (forall r, In r l <-> In r (call_logs s) /\ t1 <= call_time r <= t2) /\
    (forall r, t1 <= call_time r <= t2 ->
               count_occ CallRecord_eq_dec l r
               = count_occ CallRecord_eq_dec (call_logs s) r) /\
    ((forall r, In r (call_logs s) -> ~ t1 <= call_time r <= t2) -> l = []) /\
    (call_logs s = [] -> l = []).
Proof.
  exists (List.filter (in_timeframe t1 t2) (call_logs s)).
  split; [reflexivity|]. split; [apply filter_sublist|].
  split; [|split; [|split]].
  - intros r. rewrite filter_In, in_timeframe_spec. tauto.
  - intros r Hr. rewrite count_occ_filter.
    apply in_timeframe_spec in Hr. rewrite Hr. reflexivity.
  - intros Hnone.
    destruct (List.filter (in_timeframe t1 t2) (call_logs s)) as [|r l] eqn:E;
      [reflexivity|exfalso].
    assert (In r (List.filter (in_timeframe t1 t2) (call_logs s))) as Hin
      by (rewrite E; left; reflexivity).
    apply filter_In in Hin. destruct Hin as [Hin Hr].
    apply in_timeframe_spec in Hr. exact (Hnone r Hin Hr).
  - intros ->. reflexivity.
Qed.

(** C6: starting from the empty store, after any sequence of calls of
    [add_call_log], [add_multiple_call_logs] and the four queries, failed
    ones included, every record of the store has
    [call_time <= dispatch_time <= arrival_time <= resolution_time]. *)
Theorem store_records_well_ordered (cs : list call) :
  Forall well_ordered (call_logs (run_calls cs init)).
Proof.
  unfold run_calls.
  assert (Forall well_ordered (call_logs init)) as Hinit by constructor.
  revert Hinit. generalize init as s.
  induction cs as [|c cs IH]; intros s Hinv; simpl; [assumption|].
  apply IH, run_call_invariant, Hinv.
Qed.

(** C7: [add_multiple_call_logs] adds the records one after the other with
    [add_call_log].  If all are well ordered, all are appended in order; if
    the first record out of order is preceded by [pre], the call raises the
    ordering error, the records of [pre] have been appended in order and stay,
    and neither the offending record nor any later one is stored. *)
Theorem add_multiple_call_logs_prefix s :
  (forall r rest,
     add_multiple_call_logs (r :: rest)
     = bind (add_call_log (call_id r) (call_time r) (dispatch_time r)
                          (arrival_time r) (resolution_time r) (success r))
            (fun _ => add_multiple_call_logs rest)) /\
  (forall calls,
     Forall well_ordered calls ->
     add_multiple_call_logs calls s
     = (Ok tt, {| call_logs := call_logs s ++ calls |})) /\
  (forall pre bad post,
     Forall well_ordered pre -> ~ well_ordered bad ->
     add_multiple_call_logs (pre ++ bad :: post) s
     = (Raise (ValueError msg_ordering), {| call_logs := call_logs s ++ pre |})).
Proof.
  split; [reflexivity|]. split.
  - intros calls. apply add_multiple_all_valid.
  - intros pre bad post. apply add_multiple_first_invalid.
Qed.

Lemma add_multiple_call_logs_prefix_witness :
  add_multiple_call_logs Demo.calls init = (Ok tt, mkStore Demo.calls) /\
  add_multiple_call_logs ([Demo.call1; Demo.call2] ++ Demo.bad_call :: [Demo.call3]) init
  = (Raise (ValueError msg_ordering), mkStore [Demo.call1; Demo.call2]).
Proof.
  destruct (add_multiple_call_logs_prefix init) as (_ & Hall & Hbad). split.
  - apply (Hall Demo.calls). repeat constructor; vm_compute; discriminate.
  - apply (Hbad [Demo.call1; Demo.call2] Demo.bad_call [Demo.call3]).
    + repeat constructor; vm_compute; discriminate.
    + intros [H _]. vm_compute in H. apply H. reflexivity.
Defined.

(** C10: the four queries are read-only: whatever they return or raise,
    the store they leave is the store they were called on. *)
Theorem queries_read_only s :
  snd (average_response_time s) = s /\
  snd (average_resolution_time s) = s /\
  snd (success_rate s) = s /\
  (forall t1 t2, snd (calls_in_timeframe t1 t2 s) = s).
Proof.
  split; [apply average_response_time_frame|].
  split; [apply average_resolution_time_frame|].
  split; [apply success_rate_frame|].
  intros t1 t2. apply calls_in_timeframe_frame.
Qed.

(** C9, as the code has it: with one record received at 14:30 and reached
    at 14:35 and one received at 9:15 and reached at 9:20, whatever their
    days, both responses take five minutes and [average_response_time]
    returns 5 minutes. *)
Theorem average_response_two_records s r1 r2 y1 mo1 d1 y2 mo2 d2 :
  call_logs s = [r1; r2] \/ call_logs s = [r2; r1] ->
  call_time r1 = Calendar.mk_datetime y1 mo1 d1 14 30 ->
  arrival_time r1 = Calendar.mk_datetime y1 mo1 d1 14 35 ->
  call_time r2 = Calendar.mk_datetime y2 mo2 d2 9 15 ->
  arrival_time r2 = Calendar.mk_datetime y2 mo2 d2 9 20 ->
  average_response_time s = (Ok (Calendar.minutes 5), s).
Proof.
  intros Hlogs Hc1 Ha1 Hc2 Ha2.
  assert (response_duration r1 = 300000000) as H1.
  { unfold response_duration. rewrite Hc1, Ha1.
    unfold Calendar.mk_datetime, Calendar.time_of_day, Calendar.us_per_day,
      Calendar.us_per_hour, Calendar.us_per_minute, Calendar.us_per_second.
    lia. }
  assert (response_duration r2 = 300000000) as H2.
  { unfold response_duration. rewrite Hc2, Ha2.
    unfold Calendar.mk_datetime, Calendar.time_of_day, Calendar.us_per_day,
      Calendar.us_per_hour, Calendar.us_per_minute, Calendar.us_per_second.
    lia. }
  assert (in_timedelta_range 300000000 /\ in_timedelta_range (0 + 300000000)
          /\ in_timedelta_range (0 + 300000000 + 300000000)) as (R1 & R2 & R3)
    by (unfold in_timedelta_range; repeat apply conj; vm_compute; discriminate).
  rewrite average_response_time_eq.
  - destruct Hlogs as [-> | ->]; cbn [map sum_Z]; rewrite H1, H2; reflexivity.
  - destruct Hlogs as [-> | ->]; discriminate.
  - destruct Hlogs as [-> | ->]; cbn [map totals_in_range]; rewrite H1, H2;
      auto 10.
Qed.

Lemma average_response_two_records_witness :
  average_response_time (mkStore [Demo.call1; Demo.call2])
  = (Ok (Calendar.minutes 5), mkStore [Demo.call1; Demo.call2]).
Proof.
  apply (average_response_two_records _ Demo.call1 Demo.call2 2023 10 1 2023 10 2);
    solve [left; reflexivity | reflexivity].
Defined.

(** C9, as the claim states it, fails: on the two records of the example
    the average is not 4.5 minutes. *)
Lemma average_response_not_four_and_a_half :
  call_time Demo.call1 = Calendar.mk_datetime 2023 10 1 14 30 /\
  arrival_time Demo.call1 = Calendar.mk_datetime 2023 10 1 14 35 /\
  call_time Demo.call2 = Calendar.mk_datetime 2023 10 2 9 15 /\
  arrival_time Demo.call2 = Calendar.mk_datetime 2023 10 2 9 20 /\
  fst (average_response_time (mkStore [Demo.call1; Demo.call2]))
  <> Ok (Calendar.half_minutes 9).
Proof.
  repeat apply conj; try reflexivity. vm_compute. discriminate.
Qed.

(** C2: the rate is the success fraction times [10^19], not times 100.
    With one successful record the code returns [1e19] where the documented
    percentage is [100.0]; on the example data (two successes out of three)
    it returns [6510416666666666 * 2^10], about [6.67e18], where the
    percentage is about [66.67]. *)
Theorem success_rate_not_percentage :
  success_rate (mkStore [Demo.call1])
  = (Ok (Float.Finite false 4882812500000000 11), mkStore [Demo.call1]) /\
  documented_success_rate (mkStore [Demo.call1])
  = (Ok (Float.Finite false 7036874417766400 (-46)), mkStore [Demo.call1]) /\
  Float.of_int 100 = Ok (Float.Finite false 7036874417766400 (-46)) /\
  success_rate (mkStore Demo.calls)
  = (Ok (Float.Finite false 6510416666666666 10), mkStore Demo.calls) /\
  documented_success_rate (mkStore Demo.calls)
  = (Ok (Float.Finite false 4691249611844266 (-46)), mkStore Demo.calls).
Proof. repeat apply conj; vm_compute; reflexivity. Qed.

(** C8: on non-empty stores [success_rate] is [0.0] when no record is
    successful, is [1e19] when all are, whatever their number, and that is
    its largest value; it is the binary64 product of the scale [1e19] and
    the binary64 quotient [k / N], so it is the same for two stores with
    equal success fractions, and it is proportional to [k / N] to the
    precision of binary64: within [2^-51] of [10^19 * k / N], relatively. *)
Theorem success_rate_proportional :
  (forall s, call_logs s <> [] ->
     Forall (fun r => success r = false) (call_logs s) ->
     success_rate s = (Ok Float.zero, s)) /\
  (forall s, call_logs s <> [] ->
     Forall (fun r => success r = true) (call_logs s) ->
     success_rate s = (Ok Float.top_rate, s)) /\
  (forall s, call_logs s <> [] ->
     exists fraction,
       Float.int_truediv (Z.of_nat (successes (call_logs s))) (len (call_logs s))
       = Ok fraction /\
       success_rate s = (Ok (Float.mul fraction Float.top_rate), s) /\
       Float.leb Float.zero (Float.mul fraction Float.top_rate) = true /\
       Float.leb (Float.mul fraction Float.top_rate) Float.top_rate = true) /\
  (forall s1 s2, call_logs s1 <> [] -> call_logs s2 <> [] ->
     Z.of_nat (successes (call_logs s1)) * len (call_logs s2)
     = Z.of_nat (successes (call_logs s2)) * len (call_logs s1) ->
     fst (success_rate s1) = fst (success_rate s2)) /\
  (forall s, call_logs s <> [] -> len (call_logs s) <= 2 ^ 1022 ->
     exists m e,
       success_rate s = (Ok (Float.Finite false m e), s) /\
       Float.close_to m e (rate_scale * Z.of_nat (successes (call_logs s)))
                      (len (call_logs s)) 51).
Proof.
  split; [|split; [|split; [|split]]]; [| | | |exact success_rate_close].
  - intros s Hne Hall. rewrite success_rate_eq by assumption.
    rewrite (successes_all_failed _ Hall).
    rewrite int_truediv_zero by (apply len_pos, Hne).
    rewrite mul_zero_top_rate. reflexivity.
  - intros s Hne Hall. rewrite success_rate_eq by assumption.
    rewrite (successes_all_successful _ Hall).
    fold (len (call_logs s)).
    rewrite int_truediv_one by (apply len_pos, Hne).
    rewrite mul_one_top_rate. reflexivity.
  - intros s Hne. rewrite success_rate_eq by assumption.
    pose proof (successes_le (call_logs s)) as Hk.
    pose proof (len_pos _ Hne) as HN.
    destruct (FloatFacts.int_truediv_fraction
                (Z.of_nat (successes (call_logs s))) (len (call_logs s)))
      as (m & e & Hq & _ & Hm & He & Hle); [unfold len; lia|assumption|].
    destruct (FloatFacts.mul_top_rate_le m e Hm He Hle) as (m' & e' & _ & Hmul & Hmax & Hpos).
    exists (Float.Finite false m e). rewrite Hq, Hmul.
    repeat apply conj; try reflexivity; assumption.
  - intros s1 s2 Hne1 Hne2 Heq.
    rewrite !success_rate_eq by assumption. simpl.
    rewrite (int_truediv_ext (Z.of_nat (successes (call_logs s1)))
               (len (call_logs s1))
               (Z.of_nat (successes (call_logs s2)))
               (len (call_logs s2)));
      auto using len_pos; lia.
Qed.

Lemma success_rate_proportional_witness :
  success_rate (mkStore [Demo.call2]) = (Ok Float.zero, mkStore [Demo.call2]) /\
  success_rate (mkStore [Demo.call1; Demo.call3])
  = (Ok Float.top_rate, mkStore [Demo.call1; Demo.call3]) /\
  fst (success_rate (mkStore [Demo.call1; Demo.call2]))
  = fst (success_rate (mkStore [Demo.call1; Demo.call2; Demo.call2; Demo.call3])) /\
  exists m e,
    success_rate (mkStore Demo.calls) = (Ok (Float.Finite false m e), mkStore Demo.calls) /\
    Float.close_to m e (rate_scale * 2) 3 51.
Proof.
  destruct success_rate_proportional as (Hzero & Hone & _ & Hext & Hclose).
  split; [|split; [|split]].
  - apply (Hzero (mkStore [Demo.call2])); [discriminate|].
    repeat constructor.
  - apply (Hone (mkStore [Demo.call1; Demo.call3])); [discriminate|].
    repeat constructor.
  - apply (Hext (mkStore [Demo.call1; Demo.call2])
                (mkStore [Demo.call1; Demo.call2; Demo.call2; Demo.call3]));
      [discriminate|discriminate|reflexivity].
  - apply (Hclose (mkStore Demo.calls)); [discriminate|].
    vm_compute. discriminate.
Defined.

(** * Further properties *)

(** ** Order of the rounded values *)

Module FloatOrder.
Import Float FloatFacts.

Lemma round_nearest_even_mono_num n n' d :
  0 < d -> n <= n' -> round_nearest_even n d <= round_nearest_even n' d.
Proof.
  intros Hd Hle. unfold round_nearest_even.
  pose proof (Z.div_mod n d ltac:(lia)) as Hn.
  pose proof (Z.div_mod n' d ltac:(lia)) as Hn'.
  pose proof (Z.mod_pos_bound n d Hd) as Hr.
  pose proof (Z.mod_pos_bound n' d Hd) as Hr'.
  assert (n / d <= n' / d) as Hq by (apply Z.div_le_mono; lia).
  destruct (Z.eq_dec (n / d) (n' / d)) as [Heq|Hne].
  - rewrite <- Heq in *.
    destruct (Z.compare_spec (2 * (n mod d)) d);
      destruct (Z.compare_spec (2 * (n' mod d)) d);
      destruct (Z.even (n / d)); lia.
  - destruct (Z.compare_spec (2 * (n mod d)) d);
      destruct (Z.compare_spec (2 * (n' mod d)) d);
      destruct (Z.even (n / d)); destruct (Z.even (n' / d)); lia.
Qed.

(** Rounding to an integer is monotone on fractions. *)
Lemma round_nearest_even_mono n1 d1 n2 d2 :
  0 < d1 -> 0 < d2 -> n1 * d2 <= n2 * d1 ->
  round_nearest_even n1 d1 <= round_nearest_even n2 d2.
Proof.
  intros H1 H2 Hle.
  rewrite <- (round_nearest_even_scale d2 n1 d1) by assumption.
  rewrite <- (round_nearest_even_scale d1 n2 d2) by assumption.
  replace (d1 * d2) with (d2 * d1) by ring.
  apply round_nearest_even_mono_num; [nia|lia].
Qed.

Lemma frac_log2_mono a1 b1 a2 b2 :
  0 < a1 -> 0 < b1 -> 0 < a2 -> 0 < b2 -> a1 * b2 <= a2 * b1 ->
  frac_log2 a1 b1 <= frac_log2 a2 b2.
Proof.
  intros Ha1 Hb1 Ha2 Hb2 Hle.
  apply frac_log2_ge; try assumption.
  destruct (frac_log2_spec a1 b1 Ha1 Hb1) as [Hge _].
  rewrite frac_ge_pow2_spec in *.
  set (E := frac_log2 a1 b1) in *.
  pose proof (pow2_pos E). pose proof (pow2_pos (- E)).
  apply (Z.mul_le_mono_pos_l _ _ b1); [assumption|].
  transitivity (b2 * (a1 * pow2 (- E))); [nia|].
  replace (b1 * (a2 * pow2 (- E))) with (a2 * b1 * pow2 (- E)) by ring.
  replace (b2 * (a1 * pow2 (- E))) with (a1 * b2 * pow2 (- E)) by ring.
  apply Z.mul_le_mono_nonneg_r; lia.
Qed.

(** Two finite floats compare as their mantissas scaled to a common
    exponent below both. *)
Lemma leb_finite_base m1 e1 m2 e2 c :
  c <= e1 -> c <= e2 ->
  leb (Finite false m1 e1) (Finite false m2 e2) = true
  <-> m1 * 2 ^ (e1 - c) <= m2 * 2 ^ (e2 - c).
Proof.
  intros H1 H2. unfold leb, signed. rewrite Z.leb_le.
  set (mn := Z.min e1 e2).
  assert (c <= mn) as Hc by (unfold mn; lia).
  assert (0 < 2 ^ (mn - c)) as Hp by (apply Z.pow_pos_nonneg; lia).
  replace (e1 - c) with ((e1 - mn) + (mn - c)) by lia.
  replace (e2 - c) with ((e2 - mn) + (mn - c)) by lia.
  rewrite !Z.pow_add_r by (unfold mn; lia).
  rewrite !Z.mul_assoc.
  split; intros H.
  - apply Z.mul_le_mono_nonneg_r; lia.
  - apply Z.mul_le_mono_pos_r in H; assumption.
Qed.

(** The result of [round_frac] has the value of the rounded mantissa at
    the exponent of the fraction's binade. *)
Lemma round_frac_value a b m e :
  a <> 0 -> round_frac a b = Some (m, e) ->
  let e0 := Z.max (frac_log2 a b - (prec - 1)) emin in
  e0 <= e /\
  forall c, c <= e0 ->
    m * 2 ^ (e - c)
    = round_nearest_even (a * pow2 (- e0)) (b * pow2 e0) * 2 ^ (e0 - c).
Proof.
  intros Ha. unfold round_frac.
  destruct (Z.eqb_spec a 0); [contradiction|].
  set (e0 := Z.max (frac_log2 a b - (prec - 1)) emin).
  set (m0 := round_nearest_even (a * pow2 (- e0)) (b * pow2 e0)).
  destruct (Z.eqb_spec m0 (2 ^ prec)) as [Hcarry|Hno].
  - destruct (emax <? e0 + 1); [discriminate|]. intros [= <- <-].
    simpl. split; [lia|]. intros c Hc. rewrite Hcarry.
    replace (e0 + 1 - c) with (Z.succ (e0 - c)) by lia.
    rewrite Z.pow_succ_r by lia.
    change (2 ^ prec) with (2 * 2 ^ (prec - 1)). ring.
  - destruct (emax <? e0); [discriminate|]. intros [= <- <-].
    simpl. split; [lia|]. reflexivity.
Qed.

(** Rounding is monotone: a larger fraction never rounds to a smaller
    float. *)
Lemma round_frac_mono a1 b1 a2 b2 m1 e1 m2 e2 :
  0 <= a1 -> 0 < b1 -> 0 <= a2 -> 0 < b2 -> a1 * b2 <= a2 * b1 ->
  round_frac a1 b1 = Some (m1, e1) -> round_frac a2 b2 = Some (m2, e2) ->
  leb (Finite false m1 e1) (Finite false m2 e2) = true.
Proof.
  intros Ha1 Hb1 Ha2 Hb2 Hle Hr1 Hr2.
  destruct (Z.eq_dec a2 0) as [Hz2|Hnz2].
  { assert (a1 = 0) as Hz1 by nia. subst a1 a2.
    unfold round_frac in Hr1, Hr2. simpl in Hr1, Hr2.
    injection Hr1 as <- <-. injection Hr2 as <- <-. reflexivity. }
  destruct (Z.eq_dec a1 0) as [Hz1|Hnz1].
  { subst a1. unfold round_frac in Hr1. simpl in Hr1. injection Hr1 as <- <-.
    destruct (round_frac_value a2 b2 m2 e2 Hnz2 Hr2) as [He2 Hv2].
    apply (leb_finite_base 0 emin m2 e2 emin); [lia|lia|].
    rewrite Hv2 by lia. rewrite Z.mul_0_l.
    apply Z.mul_nonneg_nonneg; [|apply Z.pow_nonneg; lia].
    apply (round_nearest_even_ge _ _ 0).
    - apply Z.mul_pos_pos; [assumption|apply pow2_pos].
    - rewrite Z.mul_0_l. apply Z.mul_nonneg_nonneg; [lia|].
      pose proof (pow2_pos (- Z.max (frac_log2 a2 b2 - (prec - 1)) emin)). lia. }
  destruct (round_frac_value a1 b1 m1 e1 Hnz1 Hr1) as [He1 Hv1].
  destruct (round_frac_value a2 b2 m2 e2 Hnz2 Hr2) as [He2 Hv2].
  pose proof (frac_log2_mono a1 b1 a2 b2 ltac:(lia) Hb1 ltac:(lia) Hb2 Hle)
    as HE.
  set (E1 := frac_log2 a1 b1) in *. set (E2 := frac_log2 a2 b2) in *.
  set (f1 := Z.max (E1 - (prec - 1)) emin) in *.
  set (f2 := Z.max (E2 - (prec - 1)) emin) in *.
  assert (f1 <= f2) as Hf by (unfold f1, f2; lia).
  apply (leb_finite_base m1 e1 m2 e2 f1); [lia|lia|].
  rewrite Hv1, Hv2 by lia. rewrite Z.sub_diag, Z.mul_1_r.
  pose proof (pow2_pos f1) as P1. pose proof (pow2_pos (- f1)) as Q1.
  pose proof (pow2_pos f2) as P2. pose proof (pow2_pos (- f2)) as Q2.
  assert (0 < b1 * pow2 f1) as Hd1 by (apply Z.mul_pos_pos; assumption).
  assert (0 < b2 * pow2 f2) as Hd2 by (apply Z.mul_pos_pos; assumption).
  destruct (Z.eq_dec f1 f2) as [Heq|Hne].
  - rewrite <- Heq. rewrite Z.sub_diag, Z.mul_1_r.
    apply round_nearest_even_mono; try assumption.
    + rewrite <- Heq in Hd2. assumption.
    + replace (a1 * pow2 (- f1) * (b2 * pow2 f1))
        with (a1 * b2 * (pow2 (- f1) * pow2 f1)) by ring.
      replace (a2 * pow2 (- f1) * (b1 * pow2 f1))
        with (a2 * b1 * (pow2 (- f1) * pow2 f1)) by ring.
      apply Z.mul_le_mono_nonneg_r; [nia|assumption].
  - assert (f1 < f2) as Hlt by lia.
    assert (f2 = E2 - (prec - 1)) as Hf2 by (unfold f2 in *; lia).
    assert (E1 + 1 <= f2 + (prec - 1)) as HE1 by (unfold f1 in *; lia).
    (* the larger fraction is normal: its mantissa has 53 bits *)
    assert (2 ^ (prec - 1) <= round_nearest_even (a2 * pow2 (- f2)) (b2 * pow2 f2))
      as Hm2.
    { apply round_nearest_even_ge; [assumption|].
      destruct (frac_log2_spec a2 b2 ltac:(lia) Hb2) as [Hge _].
      fold E2 in Hge. rewrite frac_ge_pow2_spec in Hge.
      pose proof (pow2_shift f2 (prec - 1) ltac:(unfold prec; lia)) as Hs.
      replace (f2 + (prec - 1)) with E2 in Hs by lia.
      pose proof (pow2_pos (- E2)) as PE.
      apply (Z.mul_le_mono_pos_r _ _ (pow2 (- E2))); [assumption|].
      replace (2 ^ (prec - 1) * (b2 * pow2 f2) * pow2 (- E2))
        with (b2 * (2 ^ (prec - 1) * pow2 f2 * pow2 (- E2))) by ring.
      rewrite <- Hs. nia. }
    (* the smaller one lies below the binade of the larger *)
    assert (frac_le a1 b1 (2 ^ (prec - 1)) f2) as Hbelow.
    { destruct (frac_log2_spec a1 b1 ltac:(lia) Hb1) as [_ Hn].
      fold E1 in Hn.
      assert (frac_ge_pow2 a1 b1 (f2 + (prec - 1)) = false) as Hn'.
      { destruct (frac_ge_pow2 a1 b1 (f2 + (prec - 1))) eqn:Hg; [|reflexivity].
        rewrite (frac_ge_pow2_mono a1 b1 (E1 + 1) (f2 + (prec - 1))) in Hn
          by (assumption || lia).
        discriminate. }
      apply not_true_iff_false in Hn'. rewrite frac_ge_pow2_spec in Hn'.
      unfold frac_le.
      pose proof (pow2_shift f2 (prec - 1) ltac:(unfold prec; lia)) as Hs.
      pose proof (pow2_pos (f2 + (prec - 1))) as PE.
      pose proof (pow2_pos (- (f2 + (prec - 1)))) as QE.
      apply (Z.mul_le_mono_pos_r _ _ (pow2 (- (f2 + (prec - 1)))));
        [assumption|].
      replace (2 ^ (prec - 1) * b1 * pow2 f2 * pow2 (- (f2 + (prec - 1))))
        with (b1 * (2 ^ (prec - 1) * pow2 f2 * pow2 (- (f2 + (prec - 1)))))
        by ring.
      rewrite <- Hs. nia. }
    pose proof (frac_le_shift a1 b1 (2 ^ (prec - 1)) f2 f1 Hb1 ltac:(lia) Hbelow)
      as Hn1.
    pose proof (round_nearest_even_le _ _ _ Hd1 Hn1) as Hm1.
    assert (0 < 2 ^ (f2 - f1)) by (apply Z.pow_pos_nonneg; lia).
    nia.
Qed.

End FloatOrder.

(** ** Sums, rounding and filters *)

Lemma divide_and_round_eq_round_nearest_even a b :
  0 < b -> divide_and_round a b = Float.round_nearest_even a b.
Proof.
  intros Hb. unfold divide_and_round, Float.round_nearest_even.
  destruct (Z.ltb_spec 0 b); [|lia].
  rewrite Zeven_mod.
  pose proof (Z.mod_pos_bound (a / b) 2 ltac:(lia)) as Hq.
  destruct (Z.compare_spec (2 * (a mod b)) b) as [He|Hl|Hg].
  - destruct (Z.ltb_spec b (2 * (a mod b))); [lia|].
    rewrite He, Z.eqb_refl. simpl.
    destruct (Z.eqb_spec ((a / b) mod 2) 1) as [Hq1|Hq1];
      destruct (Z.eqb_spec ((a / b) mod 2) 0) as [Hq0|Hq0]; try reflexivity; lia.
  - destruct (Z.ltb_spec b (2 * (a mod b))); [lia|].
    destruct (Z.eqb_spec (2 * (a mod b)) b); [lia|]. reflexivity.
  - destruct (Z.ltb_spec b (2 * (a mod b))); [|lia]. reflexivity.
Qed.

Lemma divide_and_round_mono a a' b :
  0 < b -> a <= a' -> divide_and_round a b <= divide_and_round a' b.
Proof.
  intros Hb Hle. rewrite !divide_and_round_eq_round_nearest_even by assumption.
  apply FloatOrder.round_nearest_even_mono_num; assumption.
Qed.

Lemma sum_Z_bounds (l : list Z) lo hi :
  Forall (fun d => lo <= d <= hi) l ->
  len l * lo <= sum_Z l <= len l * hi.
Proof.
  unfold len. induction 1 as [|d l Hd _ IH]; simpl length; simpl sum_Z; [lia|].
  rewrite Nat2Z.inj_succ. lia.
Qed.

Lemma sum_Z_le {A} (f g : A -> Z) (l : list A) :
  Forall (fun x => f x <= g x) l -> sum_Z (map f l) <= sum_Z (map g l).
Proof. induction 1 as [|x l Hx _ IH]; simpl; lia. Qed.

Lemma sum_Z_nonneg {A} (f : A -> Z) (l : list A) :
  Forall (fun x => 0 <= f x) l -> 0 <= sum_Z (map f l).
Proof. induction 1 as [|x l Hx _ IH]; simpl; lia. Qed.

Lemma len_map {A B} (f : A -> B) (l : list A) : len (map f l) = len l.
Proof. unfold len. rewrite length_map. reflexivity. Qed.

Lemma divide_and_round_between total N lo hi :
  0 < N -> N * lo <= total <= N * hi ->
  lo <= divide_and_round total N <= hi.
Proof.
  intros HN [Hlo Hhi]. split.
  - rewrite <- (divide_and_round_exact lo N HN).
    apply divide_and_round_mono; assumption.
  - rewrite <- (divide_and_round_exact hi N HN) at 1.
    apply divide_and_round_mono; assumption.
Qed.

Lemma average_bounds_of_durations (f : CallRecord -> Z) logs lo hi :
  logs <> [] ->
  Forall (fun r => lo <= f r <= hi) logs ->
  lo <= divide_and_round (sum_Z (map f logs)) (len logs) <= hi.
Proof.
  intros Hne Hall. apply divide_and_round_between; [apply len_pos, Hne|].
  pose proof (sum_Z_bounds (map f logs) lo hi) as H.
  rewrite len_map in H. apply H. apply List.Forall_map. exact Hall.
Qed.

Lemma success_rate_returns s :
  call_logs s <> [] -> exists x, success_rate s = (Ok x, s).
Proof.
  intros Hne. rewrite success_rate_eq by assumption.
  pose proof (successes_le (call_logs s)) as Hk.
  destruct (FloatFacts.int_truediv_fraction
              (Z.of_nat (successes (call_logs s))) (len (call_logs s)))
    as (m & e & Hq & _); [unfold len; lia|apply len_pos, Hne|].
  rewrite Hq. eexists. reflexivity.
Qed.

Lemma successes_zero_all_failed logs :
  successes logs = O -> Forall (fun r => success r = false) logs.
Proof.
  induction logs as [|r logs IH]; simpl; [constructor|].
  destruct (success r) eqn:Hr; [discriminate|].
  intros H. constructor; auto.
Qed.

Lemma sum_Z_Permutation (l l' : list Z) :
  Permutation l l' -> sum_Z l = sum_Z l'.
Proof. induction 1; simpl; lia. Qed.

Lemma successes_Permutation logs logs' :
  Permutation logs logs' -> successes logs = successes logs'.
Proof.
  induction 1 as [|r l l' _ IH|r r' l|l l' l'' _ IH1 _ IH2]; simpl.
  - reflexivity.
  - rewrite IH. reflexivity.
  - destruct (success r), (success r'); reflexivity.
  - congruence.
Qed.

Lemma filter_Permutation_bool {A} (p : A -> bool) (l l' : list A) :
  Permutation l l' -> Permutation (List.filter p l) (List.filter p l').
Proof.
  induction 1 as [|x l l' _ IH|x y l|l l' l'' _ IH1 _ IH2]; simpl.
  - constructor.
  - destruct (p x); [constructor|]; assumption.
  - destruct (p x), (p y); try reflexivity. constructor.
  - etransitivity; eassumption.
Qed.

Lemma filter_filter_bool {A} (p q : A -> bool) (l : list A) :
  List.filter p (List.filter q l) = List.filter (fun x => p x && q x) l.
Proof.
  induction l as [|x l IH]; simpl; [reflexivity|].
  destruct (q x); simpl; destruct (p x); simpl; rewrite IH; reflexivity.
Qed.

Lemma filter_ext_in_bool {A} (p q : A -> bool) (l : list A) :
  (forall x, In x l -> p x = q x) -> List.filter p l = List.filter q l.
Proof.
  induction l as [|x l IH]; intros H; simpl; [reflexivity|].
  rewrite (H x) by (left; reflexivity).
  rewrite IH by (intros y Hy; apply H; right; assumption). reflexivity.
Qed.

Lemma filter_all_bool {A} (p : A -> bool) (l : list A) :
  Forall (fun x => p x = true) l -> List.filter p l = l.
Proof.
  induction 1 as [|x l Hx _ IH]; simpl; [reflexivity|].
  rewrite Hx, IH. reflexivity.
Qed.

Lemma run_call_extends c s :
  exists added,
    call_logs (run_call c s) = call_logs s ++ added /\
    Forall well_ordered added.
Proof.
  destruct c as [id c d a r ok|calls| | | |t1 t2]; simpl.
  - destruct (in_logical_order c d a r) eqn:Ho.
    + rewrite add_call_log_ok by assumption. simpl.
      exists [mkCall id c d a r ok]. split; [reflexivity|].
      constructor; [|constructor]. apply in_logical_order_spec in Ho. exact Ho.
    + rewrite add_call_log_raise by assumption.
      exists []. rewrite app_nil_r. split; [reflexivity|constructor].
  - destruct (first_invalid calls) as [Hall|(pre & bad & post & -> & Hp & Hb)].
    + rewrite add_multiple_all_valid by assumption. simpl. eauto.
    + rewrite add_multiple_first_invalid by assumption. simpl. eauto.
  - rewrite average_response_time_frame.
    exists []. rewrite app_nil_r. split; [reflexivity|constructor].
  - rewrite average_resolution_time_frame.
    exists []. rewrite app_nil_r. split; [reflexivity|constructor].
  - rewrite success_rate_frame.
    exists []. rewrite app_nil_r. split; [reflexivity|constructor].
  - exists []. rewrite app_nil_r. split; [reflexivity|constructor].
Qed.

Lemma in_timeframe_reflect t1 t2 r :
  reflect (t1 <= call_time r <= t2) (in_timeframe t1 t2 r).
Proof.
  apply iff_reflect. symmetry. apply in_timeframe_spec.
Qed.

Lemma calls_in_timeframe_eq t1 t2 s :
  calls_in_timeframe t1 t2 s
  = (Ok (List.filter (in_timeframe t1 t2) (call_logs s)), s).
Proof. reflexivity. Qed.


(** ** Behaviour of the methods beyond the claims *)

(** X1: on a store with [N > 0] records whose resolution durations
    [resolution_time - call_time] and their running totals stay within the
    range of [timedelta], [average_resolution_time] returns the sum of the
    durations divided by [N] and rounded to the nearest microsecond (ties to
    even): within half a microsecond of the exact mean, and the exact mean
    when that is a whole number of microseconds.  When a running total
    leaves the range it raises [OverflowError]; the store is left as it is
    in both cases. *)
Theorem average_resolution_time_mean s :
  call_logs s <> [] ->
  let N := len (call_logs s) in
  let total := sum_Z (map resolution_duration (call_logs s)) in
  (totals_in_range (map resolution_duration (call_logs s)) 0 ->
   exists avg,
     average_resolution_time s = (Ok avg, s) /\
     avg = divide_and_round total N /\
     2 * Z.abs (N * avg - total) <= N /\
     (forall q, total = N * q -> avg = q)) /\
  (~ totals_in_range (map resolution_duration (call_logs s)) 0 ->
   exists days,
     average_resolution_time s = (Raise (OverflowError_timedelta days), s) /\
     max_delta_days < Z.abs days).
Proof.
  intros Hne N total. pose proof (len_pos _ Hne) as HN. split.
  - intros Hin. exists (divide_and_round total N).
    split; [apply average_resolution_time_eq; assumption|].
    split; [reflexivity|].
    split; [apply divide_and_round_nearest, HN|].
    intros q ->. apply divide_and_round_exact, HN.
  - apply average_resolution_time_overflow, Hne.
Qed.

Lemma average_resolution_time_mean_witness :
  (exists avg,
     average_resolution_time (mkStore Demo.calls) = (Ok avg, mkStore Demo.calls) /\
     avg = divide_and_round (sum_Z (map resolution_duration Demo.calls)) 3 /\
     2 * Z.abs (3 * avg - sum_Z (map resolution_duration Demo.calls)) <= 3 /\
     (forall q, sum_Z (map resolution_duration Demo.calls) = 3 * q -> avg = q)) /\
  (exists days,
     average_resolution_time (mkStore Demo.longest_calls)
     = (Raise (OverflowError_timedelta days), mkStore Demo.longest_calls) /\
     max_delta_days < Z.abs days).
Proof.
  split.
  - apply (proj1 (average_resolution_time_mean (mkStore Demo.calls)
                    ltac:(discriminate))).
    vm_compute. repeat split; discriminate.
  - apply (proj2 (average_resolution_time_mean (mkStore Demo.longest_calls)
                    ltac:(discriminate))).
    intros Hin.
    pose proof (totals_in_range_sum _ 0 zero_in_timedelta_range Hin) as [_ H].
    vm_compute in H. apply H. reflexivity.
Defined.

(** X2: on a non-empty store whose records are in chronological order (as
    every store filled through the methods is) and whose resolution
    durations sum to at most [timedelta.max], both averages are defined, the
    average response time is not negative and it is at most the average
    resolution time. *)
Theorem average_response_le_resolution s :
  call_logs s <> [] -> Forall well_ordered (call_logs s) ->
  sum_Z (map resolution_duration (call_logs s)) <= timedelta_max ->
  exists response resolution,
    average_response_time s = (Ok response, s) /\
    average_resolution_time s = (Ok resolution, s) /\
    0 <= response <= resolution.
Proof.
  intros Hne Hall Hsum. pose proof (len_pos _ Hne) as HN.
  destruct (well_ordered_totals_in_range _ Hall Hsum) as [Hin1 Hin2].
  rewrite average_response_time_eq, average_resolution_time_eq by assumption.
  eexists _, _. split; [reflexivity|]. split; [reflexivity|]. split.
  - rewrite <- (divide_and_round_exact 0 _ HN) at 1.
    apply divide_and_round_mono; [assumption|]. rewrite Z.mul_0_r.
    apply sum_Z_nonneg. eapply Forall_impl; [exact Hall|].
    intros r (H1 & H2 & H3). unfold response_duration. lia.
  - apply divide_and_round_mono; [assumption|].
    apply sum_Z_le. eapply Forall_impl; [exact Hall|].
    intros r (H1 & H2 & H3). unfold response_duration, resolution_duration. lia.
Qed.

Lemma average_response_le_resolution_witness :
  exists response resolution,
    average_response_time (mkStore Demo.calls) = (Ok response, mkStore Demo.calls) /\
    average_resolution_time (mkStore Demo.calls) = (Ok resolution, mkStore Demo.calls) /\
    0 <= response <= resolution.
Proof.
  apply (average_response_le_resolution (mkStore Demo.calls)).
  - discriminate.
  - repeat constructor; vm_compute; discriminate.
  - vm_compute. discriminate.
Defined.

(** X3: an average lies between the extreme durations: if every response
    (resolution) duration of a non-empty store is between [lo] and [hi] and
    the running totals stay within the range of [timedelta], the average
    response (resolution) time is returned and is between [lo] and [hi].  In
    particular records that all took the same time average to exactly that
    time, a single record included. *)
Theorem average_between_extremes s lo hi :
  call_logs s <> [] ->
  (Forall (fun r => lo <= arrival_time r - call_time r <= hi) (call_logs s) ->
   totals_in_range (map response_duration (call_logs s)) 0 ->
   exists avg, average_response_time s = (Ok avg, s) /\ lo <= avg <= hi) /\
  (Forall (fun r => lo <= resolution_time r - call_time r <= hi) (call_logs s) ->
   totals_in_range (map resolution_duration (call_logs s)) 0 ->
   exists avg, average_resolution_time s = (Ok avg, s) /\ lo <= avg <= hi).
Proof.
  intros Hne. split; intros Hall Hin.
  - rewrite average_response_time_eq by assumption. eexists. split; [reflexivity|].
    apply average_bounds_of_durations; assumption.
  - rewrite average_resolution_time_eq by assumption. eexists. split; [reflexivity|].
    apply average_bounds_of_durations; assumption.
Qed.

Lemma average_between_extremes_witness :
  (exists avg, average_response_time (mkStore Demo.calls) = (Ok avg, mkStore Demo.calls)
               /\ Calendar.minutes 5 <= avg <= Calendar.minutes 5) /\
  (exists avg, average_resolution_time (mkStore Demo.calls) = (Ok avg, mkStore Demo.calls)
               /\ Calendar.minutes 20 <= avg <= Calendar.minutes 30).
Proof.
  split.
  - apply (average_between_extremes (mkStore Demo.calls)
             (Calendar.minutes 5) (Calendar.minutes 5)); [discriminate| |].
    + repeat constructor; vm_compute; discriminate.
    + vm_compute. repeat split; discriminate.
  - apply (average_between_extremes (mkStore Demo.calls)
             (Calendar.minutes 20) (Calendar.minutes 30)); [discriminate| |].
    + repeat constructor; vm_compute; discriminate.
    + vm_compute. repeat split; discriminate.
Defined.

(** X4: the store is append-only: whatever sequence of method calls is
    made, failed ones included, the records held before are still there, in
    place and unchanged, followed by the records added since (all of them in
    chronological order); nothing is ever removed, reordered or altered. *)
Theorem store_append_only (cs : list call) (s : EmergencyServicePerformance) :
  exists added,
    call_logs (run_calls cs s) = call_logs s ++ added /\
    Forall well_ordered added.
Proof.
  unfold run_calls. revert s.
  induction cs as [|c cs IH]; intros s; simpl.
  - exists []. rewrite app_nil_r. split; [reflexivity|constructor].
  - destruct (run_call_extends c s) as (a1 & E1 & H1).
    destruct (IH (run_call c s)) as (a2 & E2 & H2).
    exists (a1 ++ a2). rewrite E2, E1, <- app_assoc. split; [reflexivity|].
    apply Forall_app. split; assumption.
Qed.

(** X5: inserting a batch that is the concatenation of two batches is
    inserting the first and then, if that did not raise, the second; a batch
    of one record is a single [add_call_log]. *)
Theorem add_multiple_call_logs_app l1 l2 s :
  add_multiple_call_logs (l1 ++ l2) s
  = bind (add_multiple_call_logs l1) (fun _ => add_multiple_call_logs l2) s
  /\ forall r,
       add_multiple_call_logs [r] s
       = add_call_log (call_id r) (call_time r) (dispatch_time r)
                      (arrival_time r) (resolution_time r) (success r) s.
Proof.
  split.
  - revert s. induction l1 as [|r l1 IH]; intros s; [reflexivity|].
    simpl. unfold bind in *.
    destruct (add_call_log _ _ _ _ _ _ s) as [[[]|e] s']; [|reflexivity].
    apply IH.
  - intros r. simpl. unfold bind, ret.
    destruct (add_call_log _ _ _ _ _ _ s) as [[[]|e] s']; reflexivity.
Qed.

(** X6: [add_multiple_call_logs] returns exactly when every record of the
    batch is in chronological order; otherwise it raises the ordering error,
    and in both cases it stores at most the records of the batch. *)
Theorem add_multiple_call_logs_returns_iff calls s :
  (fst (add_multiple_call_logs calls s) = Ok tt <-> Forall well_ordered calls) /\
  (fst (add_multiple_call_logs calls s) = Ok tt \/
   fst (add_multiple_call_logs calls s) = Raise (ValueError msg_ordering)) /\
  len (call_logs s) <= len (call_logs (snd (add_multiple_call_logs calls s)))
                    <= len (call_logs s) + len calls.
Proof.
  destruct (first_invalid calls) as [Hall|(pre & bad & post & -> & Hp & Hb)].
  - rewrite add_multiple_all_valid by assumption. simpl.
    split; [tauto|]. split; [left; reflexivity|].
    unfold len. rewrite length_app. lia.
  - rewrite add_multiple_first_invalid by assumption. simpl.
    split; [|split; [right; reflexivity|]].
    + split; [discriminate|]. intros Hall. exfalso. apply Hb.
      apply Forall_app in Hall. destruct Hall as [_ Hall].
      inversion Hall; assumption.
    + unfold len. rewrite !length_app. simpl. lia.
Qed.

(** X7: a timeframe whose end is before its start is not rejected: the
    query returns the empty list. *)
Theorem calls_in_inverted_timeframe t1 t2 s :
  t2 < t1 -> calls_in_timeframe t1 t2 s = (Ok [], s).
Proof.
  intros Hlt. rewrite calls_in_timeframe_eq. do 2 f_equal.
  induction (call_logs s) as [|r l IH]; simpl; [reflexivity|].
  rewrite IH. unfold in_timeframe.
  destruct (Z.leb_spec t1 (call_time r)); [|reflexivity].
  destruct (Z.leb_spec (call_time r) t2); [lia|reflexivity].
Qed.

Lemma calls_in_inverted_timeframe_witness :
  calls_in_timeframe (Calendar.mk_datetime 2023 10 3 0 0)
                     (Calendar.mk_datetime 2023 10 1 0 0) (mkStore Demo.calls)
  = (Ok [], mkStore Demo.calls).
Proof.
  apply (calls_in_inverted_timeframe _ _ (mkStore Demo.calls)).
  vm_compute. reflexivity.
Defined.

(** X8: narrowing the timeframe narrows the answer: the calls of a window
    inside another are a subsequence of the calls of the outer window, and
    are exactly the calls of the outer answer that fall in the inner
    window. *)
Theorem calls_in_nested_timeframes s t1 t2 t1' t2' :
  t1' <= t1 -> t2 <= t2' ->
  exists inner outer,
    calls_in_timeframe t1 t2 s = (Ok inner, s) /\
    calls_in_timeframe t1' t2' s = (Ok outer, s) /\
    sublist inner outer /\
    inner = List.filter (in_timeframe t1 t2) outer.
Proof.
  intros H1 H2. rewrite !calls_in_timeframe_eq. eexists _, _.
  split; [reflexivity|]. split; [reflexivity|].
  assert (List.filter (in_timeframe t1 t2) (call_logs s)
          = List.filter (in_timeframe t1 t2)
              (List.filter (in_timeframe t1' t2') (call_logs s))) as E.
  { rewrite filter_filter_bool. apply filter_ext_in_bool. intros r _.
    unfold in_timeframe.
    destruct (Z.leb_spec t1 (call_time r)), (Z.leb_spec (call_time r) t2),
      (Z.leb_spec t1' (call_time r)), (Z.leb_spec (call_time r) t2');
      simpl; try reflexivity; lia. }
  split; [|exact E]. rewrite E. apply filter_sublist.
Qed.

Lemma calls_in_nested_timeframes_witness :
  exists inner outer,
    calls_in_timeframe (Calendar.mk_datetime 2023 10 2 0 0)
                       (Calendar.mk_datetime 2023 10 2 23 59) (mkStore Demo.calls)
    = (Ok inner, mkStore Demo.calls) /\
    calls_in_timeframe (Calendar.mk_datetime 2023 10 1 0 0)
                       (Calendar.mk_datetime 2023 10 3 23 59) (mkStore Demo.calls)
    = (Ok outer, mkStore Demo.calls) /\
    sublist inner outer /\
    inner = List.filter (in_timeframe (Calendar.mk_datetime 2023 10 2 0 0)
                                      (Calendar.mk_datetime 2023 10 2 23 59)) outer.
Proof.
  apply (calls_in_nested_timeframes (mkStore Demo.calls));
    vm_compute; discriminate.
Defined.

(** X9: a query after a successful insertion answers as before, with the
    new record added at the end exactly when its [call_time] is in the
    timeframe. *)
Theorem calls_in_timeframe_after_add s id c d a r ok t1 t2 :
  c <= d /\ d <= a /\ a <= r ->
  exists before after,
    calls_in_timeframe t1 t2 s = (Ok before, s) /\
    bind (add_call_log id c d a r ok) (fun _ => calls_in_timeframe t1 t2) s
    = (Ok after, {| call_logs := call_logs s ++ [mkCall id c d a r ok] |}) /\
    (t1 <= c <= t2 -> after = before ++ [mkCall id c d a r ok]) /\
    (~ t1 <= c <= t2 -> after = before).
Proof.
  intros Ho. apply in_logical_order_spec in Ho.
  unfold bind. rewrite add_call_log_ok by assumption.
  rewrite !calls_in_timeframe_eq. cbn [call_logs].
  eexists _, _. split; [reflexivity|]. split; [reflexivity|].
  rewrite List.filter_app. cbn [List.filter].
  destruct (in_timeframe t1 t2 (mkCall id c d a r ok)) eqn:E.
  - apply in_timeframe_spec in E. cbn [call_time] in E.
    split; [reflexivity|]. intros Hn. contradiction.
  - split; [|intros _; apply app_nil_r].
    intros Hin. exfalso.
    assert (in_timeframe t1 t2 (mkCall id c d a r ok) = true) as E'
      by (apply in_timeframe_spec; exact Hin).
    congruence.
Qed.

Lemma calls_in_timeframe_after_add_witness :
  exists before after,
    calls_in_timeframe 0 100 (mkStore [mkCall 1 5 6 7 8 true])
    = (Ok before, mkStore [mkCall 1 5 6 7 8 true]) /\
    bind (add_call_log 2 50 60 70 80 false) (fun _ => calls_in_timeframe 0 100)
         (mkStore [mkCall 1 5 6 7 8 true])
    = (Ok after, mkStore [mkCall 1 5 6 7 8 true; mkCall 2 50 60 70 80 false]) /\
    (0 <= 50 <= 100 -> after = before ++ [mkCall 2 50 60 70 80 false]) /\
    (~ 0 <= 50 <= 100 -> after = before).
Proof.
  apply (calls_in_timeframe_after_add (mkStore [mkCall 1 5 6 7 8 true])
           2 50 60 70 80 false 0 100).
  lia.
Defined.

(** X10: insert and look up: a batch of well-ordered records inserted into
    a new store and queried with a timeframe that covers all their call
    times comes back whole, in the order given. *)
Theorem insert_then_query_round_trip calls t1 t2 :
  Forall well_ordered calls ->
  Forall (fun r => t1 <= call_time r <= t2) calls ->
  bind (add_multiple_call_logs calls) (fun _ => calls_in_timeframe t1 t2) init
  = (Ok calls, mkStore calls).
Proof.
  intros Hall Hin. unfold bind.
  rewrite add_multiple_all_valid by assumption.
  rewrite calls_in_timeframe_eq. cbn [call_logs init app].
  rewrite filter_all_bool; [reflexivity|].
  eapply Forall_impl; [exact Hin|]. intros r Hr.
  apply in_timeframe_spec, Hr.
Qed.

Lemma insert_then_query_round_trip_witness :
  bind (add_multiple_call_logs Demo.calls)
       (fun _ => calls_in_timeframe (Calendar.mk_datetime 2023 10 1 0 0)
                                    (Calendar.mk_datetime 2023 10 3 23 59)) init
  = (Ok Demo.calls, mkStore Demo.calls).
Proof.
  apply (insert_then_query_round_trip Demo.calls).
  - repeat constructor; vm_compute; discriminate.
  - repeat constructor; vm_compute; discriminate.
Defined.

(** X11: what a query returns from a store of well-ordered records can be
    inserted into a new store as one batch: the insertion does not raise
    and the new store holds exactly the answer. *)
Theorem query_answer_reinserts s t1 t2 :
  Forall well_ordered (call_logs s) ->
  exists answer,
    calls_in_timeframe t1 t2 s = (Ok answer, s) /\
    add_multiple_call_logs answer init = (Ok tt, mkStore answer).
Proof.
  intros Hall. rewrite calls_in_timeframe_eq. eexists. split; [reflexivity|].
  rewrite add_multiple_all_valid; [reflexivity|].
  apply List.Forall_forall. intros r Hr. apply filter_In in Hr.
  destruct Hr as [Hr _].
  rewrite List.Forall_forall in Hall. apply Hall, Hr.
Qed.

Lemma query_answer_reinserts_witness :
  exists answer,
    calls_in_timeframe (Calendar.mk_datetime 2023 10 2 0 0)
                       (Calendar.mk_datetime 2023 10 3 23 59) (mkStore Demo.calls)
    = (Ok answer, mkStore Demo.calls) /\
    add_multiple_call_logs answer init = (Ok tt, mkStore answer).
Proof.
  apply (query_answer_reinserts (mkStore Demo.calls)).
  repeat constructor; vm_compute; discriminate.
Defined.

(** X12: the rate and the timeframe queries do not depend on the order of
    insertion: two stores holding the same records in different orders give
    the same rate (or the same error) and answers with the same records.  So
    do the two averages when the records are in chronological order and
    their resolution durations sum to at most [timedelta.max]; beyond that
    the order decides which running total overflows. *)
Theorem metrics_order_independent s1 s2 :
  Permutation (call_logs s1) (call_logs s2) ->
  fst (success_rate s1) = fst (success_rate s2) /\
  (forall t1 t2 l1 l2,
     fst (calls_in_timeframe t1 t2 s1) = Ok l1 ->
     fst (calls_in_timeframe t1 t2 s2) = Ok l2 ->
     Permutation l1 l2) /\
  (Forall well_ordered (call_logs s1) ->
   sum_Z (map resolution_duration (call_logs s1)) <= timedelta_max ->
   fst (average_response_time s1) = fst (average_response_time s2) /\
   fst (average_resolution_time s1) = fst (average_resolution_time s2)).
Proof.
  intros Hp.
  assert (len (call_logs s1) = len (call_logs s2)) as Hlen
    by (unfold len; rewrite (Permutation_length Hp); reflexivity).
  assert (forall t1 t2 l1 l2,
             fst (calls_in_timeframe t1 t2 s1) = Ok l1 ->
             fst (calls_in_timeframe t1 t2 s2) = Ok l2 ->
             Permutation l1 l2) as Hq.
  { intros t1 t2 a1 a2. rewrite !calls_in_timeframe_eq. cbn [fst].
    intros [= <-] [= <-]. apply filter_Permutation_bool, Hp. }
  destruct (call_logs s1) as [|r1 l1] eqn:E1.
  - apply Permutation_nil_l in Hp.
    unfold average_response_time, average_resolution_time, success_rate,
      bind, get, raise, ret.
    rewrite E1, <- Hp. cbn.
    split; [reflexivity|]. split; [exact Hq|]. intros _ _. split; reflexivity.
  - assert (call_logs s1 <> []) as Hne1 by (rewrite E1; discriminate).
    assert (call_logs s2 <> []) as Hne2.
    { intros E2. rewrite E2 in Hp.
      apply Permutation_sym, Permutation_nil_l in Hp. discriminate. }
    rewrite <- E1 in *.
    split; [|split; [exact Hq|]].
    + rewrite !success_rate_eq by assumption. cbn [fst]. rewrite <- Hlen.
      rewrite (successes_Permutation _ _ Hp). reflexivity.
    + intros Hall Hsum.
      assert (Forall well_ordered (call_logs s2)) as Hall2
        by (rewrite <- Hp; exact Hall).
      pose proof (sum_Z_Permutation _ _ (Permutation_map response_duration Hp))
        as Hs1.
      pose proof (sum_Z_Permutation _ _ (Permutation_map resolution_duration Hp))
        as Hs2.
      destruct (well_ordered_totals_in_range _ Hall Hsum) as [Ha1 Hb1].
      destruct (well_ordered_totals_in_range _ Hall2 ltac:(rewrite <- Hs2; exact Hsum))
        as [Ha2 Hb2].
      rewrite !average_response_time_eq, !average_resolution_time_eq
        by assumption.
      cbn [fst]. rewrite <- Hlen, Hs1, Hs2. split; reflexivity.
Qed.

Lemma metrics_order_independent_witness :
  fst (success_rate (mkStore [Demo.call1; Demo.call2; Demo.call3]))
  = fst (success_rate (mkStore [Demo.call3; Demo.call1; Demo.call2])) /\
  fst (average_response_time (mkStore [Demo.call1; Demo.call2; Demo.call3]))
  = fst (average_response_time (mkStore [Demo.call3; Demo.call1; Demo.call2])) /\
  fst (average_resolution_time (mkStore [Demo.call1; Demo.call2; Demo.call3]))
  = fst (average_resolution_time (mkStore [Demo.call3; Demo.call1; Demo.call2])).
Proof.
  destruct (metrics_order_independent
              (mkStore [Demo.call1; Demo.call2; Demo.call3])
              (mkStore [Demo.call3; Demo.call1; Demo.call2]))
    as (H1 & _ & H3).
  - cbn [call_logs].
    change [Demo.call3; Demo.call1; Demo.call2]
      with ([Demo.call3] ++ Demo.call1 :: [Demo.call2]).
    apply Permutation_cons_app. apply perm_swap.
  - split; [exact H1|]. apply H3.
    + repeat constructor; vm_compute; discriminate.
    + vm_compute. discriminate.
Defined.

(** X14: on a non-empty store of at most [2^1022] records the rate is
    [0.0] exactly when no record is successful: one success among any
    number of calls is never rounded away. *)
Theorem success_rate_zero_iff s :
  call_logs s <> [] -> len (call_logs s) <= 2 ^ 1022 ->
  (success_rate s = (Ok Float.zero, s)
   <-> Forall (fun r => success r = false) (call_logs s)).
Proof.
  intros Hne Hsize. split.
  - intros Hz. destruct (success_rate_close s Hne Hsize) as (m & e & Hr & Hc).
    rewrite Hr in Hz. injection Hz as -> ->.
    apply successes_zero_all_failed.
    unfold Float.close_to in Hc. rewrite Z.mul_0_l in Hc. simpl in Hc.
    change (Float.pow2 (- Float.emin)) with (2 ^ 1074) in Hc.
    unfold rate_scale in Hc.
    assert (0 < 2 ^ 1074) by (apply Z.pow_pos_nonneg; lia).
    destruct (successes (call_logs s)); [reflexivity|exfalso].
    rewrite Z.abs_opp, Z.abs_eq in Hc by lia. lia.
  - intros Hall. rewrite success_rate_eq by assumption.
    rewrite (successes_all_failed _ Hall).
    rewrite int_truediv_zero by (apply len_pos, Hne).
    rewrite mul_zero_top_rate. reflexivity.
Qed.

Lemma success_rate_zero_iff_witness :
  success_rate (mkStore [Demo.call2]) = (Ok Float.zero, mkStore [Demo.call2])
  <-> Forall (fun r => success r = false) [Demo.call2].
Proof.
  apply (success_rate_zero_iff (mkStore [Demo.call2])); [discriminate|].
  vm_compute. discriminate.
Defined.

(** X15: the exceptions the methods raise.  An insertion raises nothing
    but the ordering error.  A query on a store without records raises
    nothing but its empty-store error.  On a store with records the rate and
    the timeframe query never raise, and an average raises only the
    [OverflowError] of a running total that leaves the range of [timedelta].
    No call ends in a division by zero or in a float overflow. *)
Theorem exceptions_of_calls c s e :
  call_raises c s = Some e ->
  (is_insertion c = true /\ e = ValueError msg_ordering) \/
  (is_insertion c = false /\ call_logs s = [] /\ is_EmptyStoreError e = true) \/
  (call_logs s <> [] /\
   (c = AverageResponseTime /\
    ~ totals_in_range (map response_duration (call_logs s)) 0 \/
    c = AverageResolutionTime /\
    ~ totals_in_range (map resolution_duration (call_logs s)) 0) /\
   exists days, e = OverflowError_timedelta days /\ max_delta_days < Z.abs days).
Proof.
  destruct c as [id c d a r ok|calls| | | |t1 t2]; cbn [call_raises is_insertion].
  - destruct (in_logical_order c d a r) eqn:Ho.
    + rewrite add_call_log_ok by assumption. discriminate.
    + rewrite add_call_log_raise by assumption. intros [= <-]. left. auto.
  - destruct (first_invalid calls) as [Hall|(pre & bad & post & -> & Hp & Hb)].
    + rewrite add_multiple_all_valid by assumption. discriminate.
    + rewrite add_multiple_first_invalid by assumption. intros [= <-]. left. auto.
  - destruct (call_logs s) as [|r l] eqn:E.
    + unfold average_response_time, bind, get, raise. rewrite E.
      intros [= <-]. right. left. auto.
    + assert (call_logs s <> []) as Hne by (rewrite E; discriminate).
      rewrite <- E in *.
      destruct (totals_in_range_dec (map response_duration (call_logs s)) 0)
        as [Hin|Hout].
      * rewrite average_response_time_eq by assumption. discriminate.
      * destruct (average_response_time_overflow s Hne Hout) as (days & -> & Hbig).
        intros [= <-]. right. right. eauto 10.
  - destruct (call_logs s) as [|r l] eqn:E.
    + unfold average_resolution_time, bind, get, raise. rewrite E.
      intros [= <-]. right. left. auto.
    + assert (call_logs s <> []) as Hne by (rewrite E; discriminate).
      rewrite <- E in *.
      destruct (totals_in_range_dec (map resolution_duration (call_logs s)) 0)
        as [Hin|Hout].
      * rewrite average_resolution_time_eq by assumption. discriminate.
      * destruct (average_resolution_time_overflow s Hne Hout)
          as (days & -> & Hbig).
        intros [= <-]. right. right. eauto 10.
  - destruct (call_logs s) as [|r l] eqn:E.
    + unfold success_rate, bind, get, raise. rewrite E.
      intros [= <-]. right. left. auto.
    + destruct (success_rate_returns s) as [x Hx]; [rewrite E; discriminate|].
      rewrite Hx. discriminate.
  - discriminate.
Qed.

Lemma exceptions_of_calls_witness :
  (is_insertion AverageResponseTime = true /\
   OverflowError_timedelta 1000664165 = ValueError msg_ordering) \/
  (is_insertion AverageResponseTime = false /\
   call_logs (mkStore Demo.longest_calls) = [] /\
   is_EmptyStoreError (OverflowError_timedelta 1000664165) = true) \/
  (call_logs (mkStore Demo.longest_calls) <> [] /\
   (AverageResponseTime = AverageResponseTime /\
    ~ totals_in_range
        (map response_duration (call_logs (mkStore Demo.longest_calls))) 0 \/
    AverageResponseTime = AverageResolutionTime /\
    ~ totals_in_range
        (map resolution_duration (call_logs (mkStore Demo.longest_calls))) 0) /\
   exists days,
     OverflowError_timedelta 1000664165 = OverflowError_timedelta days /\
     max_delta_days < Z.abs days).
Proof.
  apply (exceptions_of_calls AverageResponseTime (mkStore Demo.longest_calls)).
  vm_compute. reflexivity.
Defined.

(** X16: both ends of a timeframe are inclusive and timestamps are whole
    microseconds, so a timeframe splits at any instant [t] into the part up
    to [t] and the part from one microsecond after [t]: the two answers
    together hold the records of the whole answer, each once. *)
Theorem calls_in_adjacent_timeframes s t1 t t2 :
  t1 - 1 <= t <= t2 ->
  exists early late whole,
    calls_in_timeframe t1 t s = (Ok early, s) /\
    calls_in_timeframe (t + 1) t2 s = (Ok late, s) /\
    calls_in_timeframe t1 t2 s = (Ok whole, s) /\
    Permutation (early ++ late) whole /\
    len early + len late = len whole.
Proof.
  intros Ht. rewrite !calls_in_timeframe_eq. eexists _, _, _.
  split; [reflexivity|]. split; [reflexivity|]. split; [reflexivity|].
  assert (Permutation
            (List.filter (in_timeframe t1 t) (call_logs s)
             ++ List.filter (in_timeframe (t + 1) t2) (call_logs s))
            (List.filter (in_timeframe t1 t2) (call_logs s))) as Hp.
  { induction (call_logs s) as [|r l IH]; [constructor|].
    cbn [List.filter].
    destruct (in_timeframe_reflect t1 t r) as [A|A],
      (in_timeframe_reflect (t + 1) t2 r) as [B|B],
      (in_timeframe_reflect t1 t2 r) as [C|C];
      cbn [app]; try lia; try exact IH.
    - apply perm_skip. exact IH.
    - rewrite <- Permutation_middle. apply perm_skip. exact IH. }
  split; [exact Hp|].
  apply Permutation_length in Hp. rewrite length_app in Hp.
  unfold len. lia.
Qed.

Lemma calls_in_adjacent_timeframes_witness :
  exists early late whole,
    calls_in_timeframe (Calendar.mk_datetime 2023 10 1 0 0)
                       (Calendar.mk_datetime 2023 10 2 9 15) (mkStore Demo.calls)
    = (Ok early, mkStore Demo.calls) /\
    calls_in_timeframe (Calendar.mk_datetime 2023 10 2 9 15 + 1)
                       (Calendar.mk_datetime 2023 10 3 23 59) (mkStore Demo.calls)
    = (Ok late, mkStore Demo.calls) /\
    calls_in_timeframe (Calendar.mk_datetime 2023 10 1 0 0)
                       (Calendar.mk_datetime 2023 10 3 23 59) (mkStore Demo.calls)
    = (Ok whole, mkStore Demo.calls) /\
    Permutation (early ++ late) whole /\
    len early + len late = len whole.
Proof.
  apply (calls_in_adjacent_timeframes (mkStore Demo.calls)).
  vm_compute. split; discriminate.
Defined.
(** The scaled fraction is monotone: [k1/N1 <= k2/N2] are divided and
    scaled to floats in the same order. *)
Lemma scaled_fraction_mono k1 N1 k2 N2 :
  0 <= k1 <= N1 -> 0 < N1 -> 0 <= k2 <= N2 -> 0 < N2 ->
  k1 * N2 <= k2 * N1 ->
  exists f1 f2,
    Float.int_truediv k1 N1 = Ok f1 /\ Float.int_truediv k2 N2 = Ok f2 /\
    Float.leb (Float.mul f1 Float.top_rate) (Float.mul f2 Float.top_rate) = true.
Proof.
  intros Hb1 HN1 Hb2 HN2 Hle.
  destruct (FloatFacts.int_truediv_fraction k1 N1 Hb1 HN1)
    as (m1 & e1 & Hq1 & Hr1 & Hm1 & He1 & Hl1).
  destruct (FloatFacts.int_truediv_fraction k2 N2 Hb2 HN2)
    as (m2 & e2 & Hq2 & Hr2 & Hm2 & He2 & Hl2).
  pose proof (FloatOrder.round_frac_mono k1 N1 k2 N2 m1 e1 m2 e2
                ltac:(lia) HN1 ltac:(lia) HN2 Hle Hr1 Hr2) as Hfrac.
  destruct (FloatFacts.mul_top_rate_le m1 e1 Hm1 He1 Hl1)
    as (m1' & e1' & Hp1 & Hmul1 & _ & _).
  destruct (FloatFacts.mul_top_rate_le m2 e2 Hm2 He2 Hl2)
    as (m2' & e2' & Hp2 & Hmul2 & _ & _).
  exists (Float.Finite false m1 e1), (Float.Finite false m2 e2).
  split; [assumption|]. split; [assumption|]. rewrite Hmul1, Hmul2.
  destruct (FloatFacts.pow2_nonpos (e1 + 11) ltac:(lia)) as [Ha1 Hb1'].
  destruct (FloatFacts.pow2_nonpos (e2 + 11) ltac:(lia)) as [Ha2 Hb2'].
  refine (FloatOrder.round_frac_mono _ _ _ _ _ _ _ _ _ _ _ _ _ Hp1 Hp2).
  - rewrite Ha1. lia.
  - apply FloatFacts.pow2_pos.
  - rewrite Ha2. lia.
  - apply FloatFacts.pow2_pos.
  - rewrite Ha1, Ha2, Hb1', Hb2'.
    apply (FloatOrder.leb_finite_base m1 e1 m2 e2 (e1 + e2 + 11)) in Hfrac;
      [|lia|lia].
    replace (e1 - (e1 + e2 + 11)) with (- (e2 + 11)) in Hfrac by lia.
    replace (e2 - (e1 + e2 + 11)) with (- (e1 + 11)) in Hfrac by lia.
    nia.
Qed.

(** X13: [success_rate] is monotone in the success fraction: when
    [k1/N1 <= k2/N2] the rate of the first store is at most the rate of the
    second, the two roundings notwithstanding. *)
Theorem success_rate_monotone s1 s2 :
  call_logs s1 <> [] -> call_logs s2 <> [] ->
  Z.of_nat (successes (call_logs s1)) * len (call_logs s2)
  <= Z.of_nat (successes (call_logs s2)) * len (call_logs s1) ->
  exists x1 x2,
    success_rate s1 = (Ok x1, s1) /\ success_rate s2 = (Ok x2, s2) /\
    Float.leb x1 x2 = true.
Proof.
  intros Hne1 Hne2 Hle. rewrite !success_rate_eq by assumption.
  pose proof (successes_le (call_logs s1)) as Hk1.
  pose proof (successes_le (call_logs s2)) as Hk2.
  destruct (scaled_fraction_mono
              (Z.of_nat (successes (call_logs s1))) (len (call_logs s1))
              (Z.of_nat (successes (call_logs s2))) (len (call_logs s2)))
    as (f1 & f2 & Hq1 & Hq2 & Hleb);
    try (unfold len; lia); try (apply len_pos; assumption); [assumption|].
  rewrite Hq1, Hq2. eexists _, _.
  split; [reflexivity|]. split; [reflexivity|]. exact Hleb.
Qed.

Lemma success_rate_monotone_witness :
  exists x1 x2,
    success_rate (mkStore [Demo.call1; Demo.call2])
    = (Ok x1, mkStore [Demo.call1; Demo.call2]) /\
    success_rate (mkStore Demo.calls) = (Ok x2, mkStore Demo.calls) /\
    Float.leb x1 x2 = true.
Proof.
  apply (success_rate_monotone (mkStore [Demo.call1; Demo.call2])
           (mkStore Demo.calls)); [discriminate|discriminate|].
  vm_compute. discriminate.
Defined.

Lemma successes_app l1 l2 : successes (l1 ++ l2) = (successes l1 + successes l2)%nat.
Proof.
  induction l1 as [|r l1 IH]; simpl; [reflexivity|].
  destruct (success r); rewrite IH; reflexivity.
Qed.

Lemma sum_Z_app l1 l2 : sum_Z (l1 ++ l2) = sum_Z l1 + sum_Z l2.
Proof. induction l1 as [|x l1 IH]; simpl; lia. Qed.

Lemma len_app {A} (l1 l2 : list A) : len (l1 ++ l2) = len l1 + len l2.
Proof. unfold len. rewrite length_app. lia. Qed.

Lemma divide_and_round_scale c a b :
  0 < c -> 0 < b -> divide_and_round (c * a) (c * b) = divide_and_round a b.
Proof.
  intros Hc Hb. rewrite !divide_and_round_eq_round_nearest_even by nia.
  apply FloatFacts.round_nearest_even_scale; assumption.
Qed.

(** X17: the example usage wraps each metric in [except ValueError].  On
    a store without records each wrapped metric returns with the metric's
    "No call logs available" message.  On a store with records the wrapped
    rate returns its value, and so does a wrapped average whose running
    totals stay within the range of [timedelta]; the [OverflowError] of an
    average whose totals leave the range is not a [ValueError]: the handler
    lets it through.  The store is untouched in every case. *)
Theorem except_ValueError_handlers s :
  (call_logs s = [] ->
   except_ValueError average_response_time s = (Ok (inr msg_empty_response), s) /\
   except_ValueError success_rate s = (Ok (inr msg_empty_rate), s) /\
   except_ValueError average_resolution_time s
   = (Ok (inr msg_empty_resolution), s)) /\
  (call_logs s <> [] ->
   (exists rate, except_ValueError success_rate s = (Ok (inl rate), s)) /\
   (totals_in_range (map response_duration (call_logs s)) 0 ->
    exists response,
      except_ValueError average_response_time s = (Ok (inl response), s)) /\
   (totals_in_range (map resolution_duration (call_logs s)) 0 ->
    exists resolution,
      except_ValueError average_resolution_time s = (Ok (inl resolution), s)) /\
   (~ totals_in_range (map response_duration (call_logs s)) 0 ->
    exists days,
      except_ValueError average_response_time s
      = (Raise (OverflowError_timedelta days), s)) /\
   (~ totals_in_range (map resolution_duration (call_logs s)) 0 ->
    exists days,
      except_ValueError average_resolution_time s
      = (Raise (OverflowError_timedelta days), s))).
Proof.
  unfold except_ValueError. split.
  - intros He.
    unfold average_response_time, average_resolution_time, success_rate,
      bind, get, raise.
    rewrite He. repeat apply conj; reflexivity.
  - intros Hne. destruct (success_rate_returns s Hne) as [x Hx].
    split; [rewrite Hx; eauto|].
    split; [intros Hin; rewrite average_response_time_eq by assumption; eauto|].
    split; [intros Hin; rewrite average_resolution_time_eq by assumption; eauto|].
    split; intros Hout.
    + destruct (average_response_time_overflow s Hne Hout) as (days & -> & _).
      eauto.
    + destruct (average_resolution_time_overflow s Hne Hout) as (days & -> & _).
      eauto.
Qed.

Lemma except_ValueError_handlers_witness :
  except_ValueError average_response_time init
  = (Ok (inr msg_empty_response), init) /\
  (exists rate,
     except_ValueError success_rate (mkStore Demo.calls)
     = (Ok (inl rate), mkStore Demo.calls)) /\
  (exists response,
     except_ValueError average_response_time (mkStore Demo.calls)
     = (Ok (inl response), mkStore Demo.calls)) /\
  (exists days,
     except_ValueError average_response_time (mkStore Demo.longest_calls)
     = (Raise (OverflowError_timedelta days), mkStore Demo.longest_calls)).
Proof.
  split.
  - apply (proj1 (except_ValueError_handlers init)). reflexivity.
  - destruct (proj2 (except_ValueError_handlers (mkStore Demo.calls))
                ltac:(discriminate)) as (Hrate & Hresp & _).
    destruct (proj2 (except_ValueError_handlers (mkStore Demo.longest_calls))
                ltac:(discriminate)) as (_ & _ & _ & Hover & _).
    split; [exact Hrate|]. split.
    + apply Hresp. vm_compute. repeat split; discriminate.
    + apply Hover. intros Hin.
      pose proof (totals_in_range_sum _ 0 zero_in_timedelta_range Hin) as [_ H].
      vm_compute in H. apply H. reflexivity.
Defined.

(** What the example usage computes: an average response of 5 minutes, a
    rate of about [6.67e18], an average resolution of 25 minutes and no call
    in the queried days of 2024 (the records are of 2023). *)
Example main_output :
  main init
  = (Ok (inl (Calendar.minutes 5),
         inl (Float.Finite false 6510416666666666 10),
         inl (Calendar.minutes 25), 0),
     mkStore Demo.calls).
Proof. vm_compute. reflexivity. Qed.

(** X18: the metrics look at durations only: moving every timestamp of
    every record by the same amount (another time zone, another epoch)
    changes neither the averages nor the rate nor whether a record is
    accepted, and moves the answer of a timeframe query along with the
    timeframe. *)
Theorem metrics_shift_invariant delta logs :
  fst (average_response_time (mkStore (map (shift_record delta) logs)))
  = fst (average_response_time (mkStore logs)) /\
  fst (average_resolution_time (mkStore (map (shift_record delta) logs)))
  = fst (average_resolution_time (mkStore logs)) /\
  fst (success_rate (mkStore (map (shift_record delta) logs)))
  = fst (success_rate (mkStore logs)) /\
  (forall r, well_orderedb (shift_record delta r) = well_orderedb r) /\
  (forall t1 t2 answer,
     fst (calls_in_timeframe t1 t2 (mkStore logs)) = Ok answer ->
     fst (calls_in_timeframe (t1 + delta) (t2 + delta)
            (mkStore (map (shift_record delta) logs)))
     = Ok (map (shift_record delta) answer)).
Proof.
  assert (forall upto,
             (forall r, upto (shift_record delta r) = upto r + delta) ->
             forall l total,
               total_duration upto (map (shift_record delta) l) total
               = total_duration upto l total) as Hshift.
  { intros upto Hu. induction l as [|r l IH]; intros total; [reflexivity|].
    cbn [map total_duration]. unfold datetime_sub. rewrite Hu.
    cbn [call_time shift_record].
    replace (upto r + delta - (call_time r + delta))
      with (upto r - call_time r) by lia.
    destruct (new_delta (upto r - call_time r)) as [d|e]; [|reflexivity].
    destruct (timedelta_add total d) as [total'|e]; [apply IH|reflexivity]. }
  assert (forall l, successes (map (shift_record delta) l) = successes l) as Hsucc.
  { induction l as [|r l IH]; simpl; [reflexivity|]. rewrite IH. reflexivity. }
  split; [|split; [|split; [|split]]].
  - destruct logs as [|r l]; [reflexivity|].
    unfold average_response_time, bind, get, lift. cbn [call_logs map].
    change (shift_record delta r :: map (shift_record delta) l)
      with (map (shift_record delta) (r :: l)).
    rewrite (Hshift arrival_time) by (intros; reflexivity). rewrite len_map.
    destruct (total_duration arrival_time (r :: l) 0); reflexivity.
  - destruct logs as [|r l]; [reflexivity|].
    unfold average_resolution_time, bind, get, lift. cbn [call_logs map].
    change (shift_record delta r :: map (shift_record delta) l)
      with (map (shift_record delta) (r :: l)).
    rewrite (Hshift resolution_time) by (intros; reflexivity). rewrite len_map.
    destruct (total_duration resolution_time (r :: l) 0); reflexivity.
  - destruct logs as [|r l]; [reflexivity|].
    rewrite !success_rate_eq by discriminate.
    cbn [fst call_logs]. rewrite Hsucc, len_map. reflexivity.
  - intros r. unfold well_orderedb, in_logical_order, shift_record. simpl.
    destruct (Z.leb_spec (call_time r) (dispatch_time r)),
      (Z.leb_spec (dispatch_time r) (arrival_time r)),
      (Z.leb_spec (arrival_time r) (resolution_time r)),
      (Z.leb_spec (call_time r + delta) (dispatch_time r + delta)),
      (Z.leb_spec (dispatch_time r + delta) (arrival_time r + delta)),
      (Z.leb_spec (arrival_time r + delta) (resolution_time r + delta));
      simpl; try reflexivity; lia.
  - intros t1 t2 answer. rewrite !calls_in_timeframe_eq. cbn [fst call_logs].
    intros [= <-]. f_equal. induction logs as [|r l IH]; [reflexivity|].
    cbn [map List.filter]. rewrite IH.
    assert (in_timeframe (t1 + delta) (t2 + delta) (shift_record delta r)
            = in_timeframe t1 t2 r) as ->.
    { unfold in_timeframe, shift_record. simpl.
      destruct (Z.leb_spec t1 (call_time r)), (Z.leb_spec (call_time r) t2),
        (Z.leb_spec (t1 + delta) (call_time r + delta)),
        (Z.leb_spec (call_time r + delta) (t2 + delta));
        simpl; try reflexivity; lia. }
    destruct (in_timeframe t1 t2 r); reflexivity.
Qed.

(** X19: identifiers are not checked and duplicates are kept, but they do
    not bias the rate: a store that holds every record twice gives the same
    rate as the store that holds them once.  It gives the same averages too
    when the records are in chronological order and twice the sum of their
    resolution durations is at most [timedelta.max]; beyond that the doubled
    store overflows where the single one may not. *)
Theorem metrics_of_doubled_store logs :
  fst (success_rate (mkStore (logs ++ logs)))
  = fst (success_rate (mkStore logs)) /\
  (Forall well_ordered logs ->
   2 * sum_Z (map resolution_duration logs) <= timedelta_max ->
   fst (average_response_time (mkStore (logs ++ logs)))
   = fst (average_response_time (mkStore logs)) /\
   fst (average_resolution_time (mkStore (logs ++ logs)))
   = fst (average_resolution_time (mkStore logs))).
Proof.
  destruct logs as [|r l]; [split; [|intros _ _; split]; reflexivity|].
  set (logs := r :: l).
  assert (logs <> []) as Hne by discriminate.
  assert (logs ++ logs <> []) as Hne2 by discriminate.
  pose proof (len_pos logs Hne) as HN.
  split.
  - rewrite !success_rate_eq by assumption. cbn [fst call_logs].
    rewrite len_app, successes_app.
    pose proof (successes_le logs) as Hk.
    rewrite (int_truediv_ext (Z.of_nat (successes logs + successes logs))
               (len logs + len logs) (Z.of_nat (successes logs)) (len logs));
      try lia. reflexivity.
  - intros Hall Hsum.
    assert (0 <= sum_Z (map resolution_duration logs)) as Hpos.
    { apply sum_Z_nonneg. eapply Forall_impl; [exact Hall|].
      intros x (H1 & H2 & H3). unfold resolution_duration. lia. }
    destruct (well_ordered_totals_in_range logs Hall ltac:(lia)) as [Ha1 Hb1].
    destruct (well_ordered_totals_in_range (logs ++ logs)) as [Ha2 Hb2].
    { apply Forall_app. split; assumption. }
    { rewrite map_app, sum_Z_app. lia. }
    rewrite !average_response_time_eq, !average_resolution_time_eq
      by assumption.
    cbn [fst call_logs].
    rewrite !map_app, !sum_Z_app, !len_app.
    split; f_equal.
    + replace (sum_Z (map response_duration logs)
               + sum_Z (map response_duration logs))
        with (2 * sum_Z (map response_duration logs)) by lia.
      replace (len logs + len logs) with (2 * len logs) by lia.
      apply divide_and_round_scale; lia.
    + replace (sum_Z (map resolution_duration logs)
               + sum_Z (map resolution_duration logs))
        with (2 * sum_Z (map resolution_duration logs)) by lia.
      replace (len logs + len logs) with (2 * len logs) by lia.
      apply divide_and_round_scale; lia.
Qed.

Lemma metrics_of_doubled_store_witness :
  fst (average_response_time (mkStore (Demo.calls ++ Demo.calls)))
  = fst (average_response_time (mkStore Demo.calls)) /\
  fst (average_resolution_time (mkStore (Demo.calls ++ Demo.calls)))
  = fst (average_resolution_time (mkStore Demo.calls)).
Proof.
  apply (proj2 (metrics_of_doubled_store Demo.calls)).
  - repeat constructor; vm_compute; discriminate.
  - vm_compute. discriminate.
Defined.

(** X20: on a store that has records, one more successful call never
    lowers the success rate and one more failed call never raises it. *)
Theorem success_rate_after_add s id c d a r ok :
  call_logs s <> [] -> c <= d /\ d <= a /\ a <= r ->
  exists before after,
    success_rate s = (Ok before, s) /\
    bind (add_call_log id c d a r ok) (fun _ => success_rate) s
    = (Ok after, {| call_logs := call_logs s ++ [mkCall id c d a r ok] |}) /\
    (ok = true -> Float.leb before after = true) /\
    (ok = false -> Float.leb after before = true).
Proof.
  intros Hne Ho. apply in_logical_order_spec in Ho.
  unfold bind. rewrite add_call_log_ok by assumption.
  set (s' := {| call_logs := call_logs s ++ [mkCall id c d a r ok] |}).
  assert (call_logs s' <> []) as Hne'
    by (unfold s'; simpl; destruct (call_logs s); discriminate).
  pose proof (successes_le (call_logs s)) as Hk.
  pose proof (len_pos _ Hne) as HN.
  assert (len (call_logs s') = len (call_logs s) + 1) as Hlen
    by (unfold s'; simpl; rewrite len_app; reflexivity).
  assert (Z.of_nat (successes (call_logs s'))
          = Z.of_nat (successes (call_logs s)) + Z.b2z ok) as Hsucc.
  { unfold s'. simpl. rewrite successes_app. simpl.
    destruct ok; simpl; lia. }
  rewrite !success_rate_eq by assumption. rewrite Hlen, Hsucc.
  set (k := Z.of_nat (successes (call_logs s))) in *.
  set (N := len (call_logs s)) in *.
  assert (0 <= k <= N) as Hkn by (unfold k, N, len; lia).
  destruct ok; simpl Z.b2z.
  - destruct (scaled_fraction_mono k N (k + 1) (N + 1))
      as (f1 & f2 & H1 & H2 & Hle); try lia.
    rewrite H1, H2. eexists _, _.
    repeat apply conj; try reflexivity; [intros _; exact Hle|discriminate].
  - destruct (scaled_fraction_mono (k + 0) (N + 1) k N)
      as (f2 & f1 & H2 & H1 & Hle); try lia.
    rewrite H1, H2. eexists _, _.
    repeat apply conj; try reflexivity; [discriminate|intros _; exact Hle].
Qed.

Lemma success_rate_after_add_witness :
  exists before after,
    success_rate (mkStore Demo.calls) = (Ok before, mkStore Demo.calls) /\
    bind (add_call_log 4 10 11 20 30 true) (fun _ => success_rate)
         (mkStore Demo.calls)
    = (Ok after, mkStore (Demo.calls ++ [mkCall 4 10 11 20 30 true])) /\
    (true = true -> Float.leb before after = true) /\
    (true = false -> Float.leb after before = true).
Proof.
  apply (success_rate_after_add (mkStore Demo.calls) 4 10 11 20 30 true).
  - discriminate.
  - lia.
Defined.
